(** * Local-Lead-Finder: the stream frame decoder of [runSearch]

  The repository has two versions of [runSearch]:
  - [src/index.tsx] reads a [fetch] response body whose lines are JSON
    envelopes [{"type": "content" | "sources", "payload": ...}]
    (module [Envelope] below);
  - the second source file calls the generation SDK directly and iterates
    over its chunks (module [Direct] below).

  Both buffer text, cut it at newline characters, trim every line and hand
  the non-empty ones to [JSON.parse].  JavaScript strings are sequences of
  UTF-16 code units; they are modelled as lists of [N]. *)

From Stdlib Require Import NArith ZArith Ascii String DecimalString List Lia.
From stdpp Require Import base list gmap.

Local Open Scope N_scope.

(** ** JavaScript strings *)

Module JS.

Abbreviation jsstring := (list N).

(** A string literal of the development: every character of [s] stands for
    its code unit, except that an apostrophe stands for the double quote
    (code unit 34), which keeps JSON texts readable. *)
Definition unit_of_ascii (a : ascii) : N :=
  let n := N_of_ascii a in if n =? 39 then 34 else n.

Definition lit (s : string) : jsstring :=
  map unit_of_ascii (list_ascii_of_string s).

Definition LF : N := 10.

(** [s.indexOf(c)] for a one-character needle: [None] stands for [-1]. *)
Fixpoint indexOf (c : N) (s : jsstring) : option nat :=
  match s with
  | [] => None
  | x :: r => if x =? c then Some 0%nat else S <$> indexOf c r
  end.

(** [s.substring(start, end)]: the arguments are clamped to the length and
    swapped when [start > end]. *)
Definition substring (s : jsstring) (start end_ : nat) : jsstring :=
  take (Nat.max start end_ - Nat.min start end_) (drop (Nat.min start end_) s).

(** [s.substring(start)]. *)
Definition substring_from (s : jsstring) (start : nat) : jsstring :=
  drop start s.

(** WhiteSpace and LineTerminator code points, the ones [trim] strips. *)
Definition is_trim_space (c : N) : bool :=
  (c =? 9) || (c =? 10) || (c =? 11) || (c =? 12) || (c =? 13) || (c =? 32)
  || (c =? 160) || (c =? 5760) || ((8192 <=? c) && (c <=? 8202))
  || (c =? 8232) || (c =? 8233) || (c =? 8239) || (c =? 8287)
  || (c =? 12288) || (c =? 65279).

Fixpoint trimStart (s : jsstring) : jsstring :=
  match s with
  | [] => []
  | c :: r => if is_trim_space c then trimStart r else s
  end.

Definition trimEnd (s : jsstring) : jsstring :=
  rev (trimStart (rev s)).

Definition trim (s : jsstring) : jsstring := trimEnd (trimStart s).

(** Truthiness of a string: [if (line)]. *)
Definition nonempty (s : jsstring) : bool :=
  match s with [] => false | _ :: _ => true end.

(** [hay.includes(needle)]. *)
Fixpoint starts_with (needle hay : jsstring) : bool :=
  match needle, hay with
  | [], _ => true
  | _ :: _, [] => false
  | a :: n', b :: h' => (a =? b) && starts_with n' h'
  end.

Fixpoint includes (needle hay : jsstring) : bool :=
  starts_with needle hay ||
  match hay with
  | [] => false
  | _ :: h' => includes needle h'
  end.

End JS.
Import JS.

(** ** The line-extraction loop

  The three loops of the sources have the same shape:
<<
  while ((i = buffer.indexOf('\n')) !== -1) {
    const line = buffer.substring(0, i).trim();
    buffer = buffer.substring(i + 1);
    BODY(line)
  }
>>
  [line_loop] is that loop over a state [St] that [BODY] transforms.  The
  fuel bounds the number of iterations; [while_lines] gives one more than the
  length of the buffer, which the loop never uses up
  ([line_loop_fuel], [while_lines_drained]). *)

Section LineLoop.

Context {St : Type}.
Variable body : jsstring -> St -> St.

Fixpoint line_loop (fuel : nat) (buffer : jsstring) (st : St) : jsstring * St :=
  match fuel with
  | O => (buffer, st)
  | S fuel' =>
      match indexOf LF buffer with
      | None => (buffer, st)
      | Some i =>
          let line := trim (substring buffer 0 i) in
          let buffer' := substring_from buffer (i + 1) in
          line_loop fuel' buffer' (body line st)
      end
  end.

Definition while_lines (buffer : jsstring) (st : St) : jsstring * St :=
  line_loop (S (length buffer)) buffer st.

(** Running [body] over a list of lines, each trimmed, first to last: what
    the loop does with a text made of these lines ([while_lines_unlines]). *)
Definition run_lines (ls : list jsstring) (st : St) : St :=
  fold_left (fun st l => body (trim l) st) ls st.

End LineLoop.

(** The text made of the lines [ls], each followed by a newline. *)
Definition unlines (ls : list jsstring) : jsstring :=
  concat (map (fun l => l ++ [LF]) ls).

(** ** JSON values and [JSON.parse] *)

Module JSON.

(** A parsed JSON value.  A number keeps the text it was written with (the
    source never computes with one), and an object keeps its members in
    source order, repeated keys included: property access takes the last
    one, as [JSON.parse] does. *)
#[local] Unset Elimination Schemes.
Inductive value : Type :=
| JNull
| JBool (b : bool)
| JNumber (lexeme : jsstring)
| JString (s : jsstring)
| JArray (elements : list value)
| JObject (members : list (jsstring * value)).
#[local] Set Elimination Schemes.

(** What a parsing function returns: a value and the unread input, a
    [SyntaxError], or [OutOfFuel] when the recursion bound was too small
    (which [parse_value_fuel] excludes for the bound [parse] gives). *)
Inductive result (A : Type) : Type :=
| Parsed (v : A) (rest : jsstring)
| SyntaxError
| OutOfFuel.
Arguments Parsed {A} v rest.
Arguments SyntaxError {A}.
Arguments OutOfFuel {A}.

(** JSON white space: tab, line feed, carriage return, space. *)
Definition is_ws (c : N) : bool :=
  (c =? 9) || (c =? 10) || (c =? 13) || (c =? 32).

Fixpoint skip_ws (s : jsstring) : jsstring :=
  match s with
  | [] => []
  | c :: r => if is_ws c then skip_ws r else s
  end.

Definition is_digit (c : N) : bool := (48 <=? c) && (c <=? 57).

Definition hex_digit (c : N) : option N :=
  if is_digit c then Some (c - 48)
  else if (65 <=? c) && (c <=? 70) then Some (c - 55)
  else if (97 <=? c) && (c <=? 102) then Some (c - 87)
  else None.

(** The characters of a string literal after its opening quote, up to the
    closing one.  Control characters below U+0020 are refused; the escapes
    are the nine of the JSON grammar. *)
Fixpoint lex_string (acc : jsstring) (s : jsstring) : option (jsstring * jsstring) :=
  match s with
  | [] => None
  | c :: r =>
      if c =? 34 then Some (rev acc, r)
      else if c <? 32 then None
      else if c =? 92 then
        match r with
        | [] => None
        | e :: r1 =>
            if e =? 34 then lex_string (34 :: acc) r1
            else if e =? 92 then lex_string (92 :: acc) r1
            else if e =? 47 then lex_string (47 :: acc) r1
            else if e =? 98 then lex_string (8 :: acc) r1
            else if e =? 102 then lex_string (12 :: acc) r1
            else if e =? 110 then lex_string (10 :: acc) r1
            else if e =? 114 then lex_string (13 :: acc) r1
            else if e =? 116 then lex_string (9 :: acc) r1
            else if e =? 117 then
              match r1 with
              | h1 :: h2 :: h3 :: h4 :: r2 =>
                  match hex_digit h1, hex_digit h2, hex_digit h3, hex_digit h4 with
                  | Some a, Some b, Some c', Some d =>
                      lex_string (((a * 16 + b) * 16 + c') * 16 + d :: acc) r2
                  | _, _, _, _ => None
                  end
              | _ => None
              end
            else None
        end
      else lex_string (c :: acc) r
  end.

(** The longest prefix of digits and what follows it. *)
Fixpoint span_digits (s : jsstring) : jsstring * jsstring :=
  match s with
  | [] => ([], [])
  | c :: r =>
      if is_digit c then let '(ds, r') := span_digits r in (c :: ds, r')
      else ([], s)
  end.

(** The optional exponent of a number, after its integer and fraction. *)
Definition lex_exponent (lexeme s : jsstring) : option (jsstring * jsstring) :=
  match s with
  | e :: r =>
      if (e =? 101) || (e =? 69) then
        let '(sign, r1) :=
          match r with
          | g :: r' => if (g =? 43) || (g =? 45) then ([g], r') else ([], r)
          | [] => ([], r)
          end in
        match span_digits r1 with
        | ([], _) => None
        | (ds, r2) => Some (lexeme ++ e :: sign ++ ds, r2)
        end
      else Some (lexeme, s)
  | [] => Some (lexeme, s)
  end.

(** The optional fraction of a number, then its exponent. *)
Definition lex_fraction (lexeme s : jsstring) : option (jsstring * jsstring) :=
  match s with
  | p :: r =>
      if p =? 46 then
        match span_digits r with
        | ([], _) => None
        | (ds, r1) => lex_exponent (lexeme ++ p :: ds) r1
        end
      else lex_exponent lexeme s
  | [] => Some (lexeme, s)
  end.

(** A number: an optional minus, [0] or a digit string that does not start
    with [0], an optional fraction, an optional exponent. *)
Definition lex_number (s : jsstring) : option (jsstring * jsstring) :=
  let '(sign, s1) :=
    match s with
    | m :: r => if m =? 45 then ([m], r) else ([], s)
    | [] => ([], s)
    end in
  match s1 with
  | d :: r =>
      if d =? 48 then lex_fraction (sign ++ [d]) r
      else if is_digit d then
        let '(ds, r1) := span_digits r in lex_fraction (sign ++ d :: ds) r1
      else None
  | [] => None
  end.

(** [strip_prefix p s]: [s] without its prefix [p], when it starts with it. *)
Fixpoint strip_prefix (p s : jsstring) : option jsstring :=
  match p, s with
  | [], _ => Some s
  | _ :: _, [] => None
  | a :: p', b :: s' => if a =? b then strip_prefix p' s' else None
  end.

(** A value, the elements of an array after its bracket, and the members of
    an object after its brace.  Every call passes [fuel] on decremented. *)
Fixpoint parse_value (fuel : nat) (s : jsstring) : result value :=
  match fuel with
  | O => OutOfFuel
  | S fuel =>
      match skip_ws s with
      | [] => SyntaxError
      | c :: r =>
          if c =? 123 then
            match skip_ws r with
            | c1 :: r1 =>
                if c1 =? 125 then Parsed (JObject []) r1
                else parse_members fuel [] r
            | [] => SyntaxError
            end
          else if c =? 91 then
            match skip_ws r with
            | c1 :: r1 =>
                if c1 =? 93 then Parsed (JArray []) r1
                else parse_elements fuel [] r
            | [] => SyntaxError
            end
          else if c =? 34 then
            match lex_string [] r with
            | Some (str, r1) => Parsed (JString str) r1
            | None => SyntaxError
            end
          else if c =? 116 then
            match strip_prefix (lit "rue") r with
            | Some r1 => Parsed (JBool true) r1
            | None => SyntaxError
            end
          else if c =? 102 then
            match strip_prefix (lit "alse") r with
            | Some r1 => Parsed (JBool false) r1
            | None => SyntaxError
            end
          else if c =? 110 then
            match strip_prefix (lit "ull") r with
            | Some r1 => Parsed JNull r1
            | None => SyntaxError
            end
          else
            match lex_number (c :: r) with
            | Some (lexeme, r1) => Parsed (JNumber lexeme) r1
            | None => SyntaxError
            end
      end
  end
with parse_elements (fuel : nat) (acc : list value) (s : jsstring) : result value :=
  match fuel with
  | O => OutOfFuel
  | S fuel =>
      match parse_value fuel s with
      | Parsed v r =>
          match skip_ws r with
          | c :: r1 =>
              if c =? 44 then parse_elements fuel (v :: acc) r1
              else if c =? 93 then Parsed (JArray (rev (v :: acc))) r1
              else SyntaxError
          | [] => SyntaxError
          end
      | SyntaxError => SyntaxError
      | OutOfFuel => OutOfFuel
      end
  end
with parse_members (fuel : nat) (acc : list (jsstring * value)) (s : jsstring)
  : result value :=
  match fuel with
  | O => OutOfFuel
  | S fuel =>
      match skip_ws s with
      | q :: r =>
          if q =? 34 then
            match lex_string [] r with
            | Some (key, r1) =>
                match skip_ws r1 with
                | c :: r2 =>
                    if c =? 58 then
                      match parse_value fuel r2 with
                      | Parsed v r3 =>
                          match skip_ws r3 with
                          | d :: r4 =>
                              if d =? 44 then parse_members fuel ((key, v) :: acc) r4
                              else if d =? 125 then
                                Parsed (JObject (rev ((key, v) :: acc))) r4
                              else SyntaxError
                          | [] => SyntaxError
                          end
                      | SyntaxError => SyntaxError
                      | OutOfFuel => OutOfFuel
                      end
                    else SyntaxError
                | [] => SyntaxError
                end
            | None => SyntaxError
            end
          else SyntaxError
      | [] => SyntaxError
      end
  end.

(** [JSON.parse(text)]: one value with white space around it and nothing
    else; [None] stands for the [SyntaxError] it throws. *)
Definition parse (text : jsstring) : option value :=
  match parse_value (2 * length text + 1) text with
  | Parsed v rest =>
      match skip_ws rest with
      | [] => Some v
      | _ :: _ => None
      end
  | SyntaxError | OutOfFuel => None
  end.

(** *** JavaScript operations on parsed values *)

(** The own property [key] of an object's members: the last one written. *)
Fixpoint own_property (key : jsstring) (ms : list (jsstring * value)) : option value :=
  match ms with
  | [] => None
  | (k, v) :: r =>
      match own_property key r with
      | Some v' => Some v'
      | None => if decide (k = key) then Some v else None
      end
  end.

(** [message.key] for a key that no prototype defines (the sources read
    [type] and [payload]): [None] is the [TypeError] of reading a property of
    [null]; [Some None] is [undefined]. *)
Definition get (key : jsstring) (v : value) : option (option value) :=
  match v with
  | JNull => None
  | JObject ms => Some (own_property key ms)
  | JBool _ | JNumber _ | JString _ | JArray _ => Some None
  end.

Fixpoint digits_value (acc : N) (ds : jsstring) : N :=
  match ds with
  | [] => acc
  | d :: r => digits_value (acc * 10 + (d - 48)) r
  end.

(** The decimal a number lexeme denotes, sign apart: a coefficient [m] and a
    power of ten [e], for [m * 10^e]. *)
Definition decimal_of (lexeme : jsstring) : N * Z :=
  let s1 :=
    match lexeme with
    | m :: r => if m =? 45 then r else lexeme
    | [] => lexeme
    end in
  let '(int, r) := span_digits s1 in
  let '(frac, r1) :=
    match r with
    | p :: r' => if p =? 46 then span_digits r' else ([], r)
    | [] => ([], r)
    end in
  let exponent : Z :=
    match r1 with
    | _ :: g :: r2 =>
        if g =? 45 then (- Z.of_N (digits_value 0 r2))%Z
        else if g =? 43 then Z.of_N (digits_value 0 r2)
        else Z.of_N (digits_value 0 (g :: r2))
    | _ => 0%Z
    end in
  (digits_value 0 (int ++ frac), (exponent - Z.of_nat (length frac))%Z).

(** Whether the double nearest to the number is zero: the coefficient is
    zero, or the magnitude is at most [2^-1075], half the least positive
    double (the tie goes to the even neighbour, which is zero). *)
Definition number_is_zero (lexeme : jsstring) : bool :=
  let '(m, e) := decimal_of lexeme in
  (m =? 0) || ((e <? 0)%Z && (Z.of_N m * 2 ^ 1075 <=? 10 ^ (- e))%Z).

(** Truthiness of a value or of [undefined] ([None]). *)
Definition truthy (v : option value) : bool :=
  match v with
  | None => false
  | Some JNull => false
  | Some (JBool b) => b
  | Some (JNumber lexeme) => negb (number_is_zero lexeme)
  | Some (JString s) => nonempty s
  | Some (JArray _) | Some (JObject _) => true
  end.

(** [v === 'text']. *)
Definition is_string (text : jsstring) (v : option value) : bool :=
  match v with
  | Some (JString s) => bool_decide (s = text)
  | _ => false
  end.

Section ToString.

(** [String(x)] for the double that a number lexeme denotes.  Its shortest
    round-trip digits are floating-point arithmetic; the development takes
    the conversion as given and depends on no property of it. *)
Variable Number_toString : jsstring -> jsstring.

(** The string that [s + v] appends for a parsed value [v]: [None] is the
    [TypeError] of an object whose own [toString] member (never callable in
    parsed JSON) hides the inherited method.  An array is joined with commas,
    [null] elements giving the empty string. *)
Fixpoint to_string (v : value) : option jsstring :=
  match v with
  | JNull => Some (lit "null")
  | JBool true => Some (lit "true")
  | JBool false => Some (lit "false")
  | JNumber lexeme => Some (Number_toString lexeme)
  | JString s => Some s
  | JArray xs =>
      (fix join (xs : list value) : option jsstring :=
         match xs with
         | [] => Some []
         | x :: r =>
             let element :=
               match x with
               | JNull => Some []
               | _ => to_string x
               end in
             match element, r with
             | None, _ => None
             | Some e, [] => Some e
             | Some e, _ :: _ =>
                 match join r with
                 | Some t => Some (e ++ 44 :: t)
                 | None => None
                 end
             end
         end) xs
  | JObject ms =>
      match own_property (lit "toString") ms with
      | Some _ => None
      | None => Some (lit "[object Object]")
      end
  end.

End ToString.

(** The code points of a string, as its iterator yields them: a high
    surrogate followed by a low one is one element. *)
Fixpoint code_points (s : jsstring) : list jsstring :=
  match s with
  | [] => []
  | c :: r =>
      match r with
      | d :: r' =>
          if (55296 <=? c) && (c <=? 56319) && (56320 <=? d) && (d <=? 57343)
          then [c; d] :: code_points r'
          else [c] :: code_points r
      | [] => [[c]]
      end
  end.

(** [[...v]]: the elements of an array, the code points of a string; [None]
    is the [TypeError] for a value that is not iterable. *)
Definition spread (v : value) : option (list value) :=
  match v with
  | JArray xs => Some xs
  | JString s => Some (map JString (code_points s))
  | JNull | JBool _ | JNumber _ | JObject _ => None
  end.

(** *** Writing a string as JSON text *)

Definition hex_char (n : N) : N := if n <? 10 then 48 + n else 87 + n.

(** One code unit inside a JSON string literal, with the escapes of
    [JSON.stringify] for the quote, the backslash and control characters. *)
Definition escape_unit (c : N) : jsstring :=
  if c =? 34 then [92; 34]
  else if c =? 92 then [92; 92]
  else if c =? 8 then [92; 98]
  else if c =? 9 then [92; 116]
  else if c =? 10 then [92; 110]
  else if c =? 12 then [92; 102]
  else if c =? 13 then [92; 114]
  else if c <? 32 then [92; 117; 48; 48; hex_char (c / 16); hex_char (c mod 16)]
  else [c].

Definition escape (s : jsstring) : jsstring := flat_map escape_unit s.

(** The string literal for [s]: a JSON text that [parse] reads back as
    [JString s] ([lex_string_escape]). *)
Definition quote (s : jsstring) : jsstring := 34 :: escape s ++ [34].

End JSON.

(** ** What both versions share *)

(** The value a line gives when [JSON.parse] accepts it after trimming.  An
    empty line gives none: [JSON.parse] refuses the empty text. *)
Definition parse_line (l : jsstring) : option JSON.value := JSON.parse (trim l).

(** A thrown value: an [Error] with its message, or anything else
    ([err instanceof Error] is false). *)
Inductive thrown : Type :=
| ErrorObject (message : jsstring)
| OtherValue.

(** The exception a line handler caught. *)
Inductive caught : Type := CaughtSyntaxError | CaughtTypeError.

(** What the code writes to the console. *)
Inductive log_entry : Type :=
| Warn (text : jsstring) (line : jsstring) (e : caught)
| LogError (err : thrown).

(** ** The SDK version of [runSearch] (the second source file) *)

Module Direct.

Record Web : Type := { uri : jsstring; title : jsstring }.

(** [interface GroundingChunk { web?: { uri: string; title: string } }] *)
Record GroundingChunk : Type := { web : option Web }.

(** One chunk of the SDK's stream:
    [chunk.candidates?.[0]?.groundingMetadata?.groundingChunks] and
    [chunk.text], each possibly [undefined]. *)
Record Chunk : Type := {
  groundingChunks : option (list GroundingChunk);
  text : option jsstring
}.

(** The component state [runSearch] writes, and the console.  ([copied],
    [lastSearch] and [canSaveSearch] only drive widgets and are left out.) *)
Record App : Type := {
  leads : list JSON.value;
  sources : list GroundingChunk;
  error : option jsstring;
  isLoading : bool;
  console : list log_entry
}.

Definition setLeads (f : list JSON.value -> list JSON.value) (a : App) : App :=
  {| leads := f (leads a); sources := sources a; error := error a;
     isLoading := isLoading a; console := console a |}.

Definition setSources (f : list GroundingChunk -> list GroundingChunk) (a : App) : App :=
  {| leads := leads a; sources := f (sources a); error := error a;
     isLoading := isLoading a; console := console a |}.

Definition setError (e : option jsstring) (a : App) : App :=
  {| leads := leads a; sources := sources a; error := e;
     isLoading := isLoading a; console := console a |}.

Definition setIsLoading (b : bool) (a : App) : App :=
  {| leads := leads a; sources := sources a; error := error a;
     isLoading := b; console := console a |}.

Definition log (e : log_entry) (a : App) : App :=
  {| leads := leads a; sources := sources a; error := error a;
     isLoading := isLoading a; console := console a ++ [e] |}.

(** The local variables of [runSearch] with the state. *)
Record Decoder : Type := {
  jsonBuffer : jsstring;
  processedSourceUris : gset jsstring;
  app : App
}.

(** The body of the loop over [jsonBuffer] (lines 164-171):
<<
    if (leadLine) {
      try { const parsedLead = JSON.parse(leadLine);
            setLeads(prevLeads => [...prevLeads, parsedLead]); }
      catch (e) { console.warn("Could not parse JSON lead line:", leadLine, e); }
    }
>> *)
Definition on_lead_line (leadLine : jsstring) (a : App) : App :=
  if nonempty leadLine then
    match JSON.parse leadLine with
    | Some parsedLead => setLeads (fun prevLeads => prevLeads ++ [parsedLead]) a
    | None => log (Warn (lit "Could not parse JSON lead line:") leadLine CaughtSyntaxError) a
    end
  else a.

(** [c.web?.uri && !processedSourceUris.has(c.web.uri)] *)
Definition is_unique_new (seen : gset jsstring) (c : GroundingChunk) : bool :=
  match web c with
  | None => false
  | Some w => nonempty (uri w) && bool_decide (uri w ∉ seen)
  end.

(** [uniqueNewChunks.forEach(c => processedSourceUris.add(c.web!.uri))] *)
Definition add_uris (cs : list GroundingChunk) (seen : gset jsstring) : gset jsstring :=
  fold_left
    (fun seen c => match web c with Some w => {[ uri w ]} ∪ seen | None => seen end)
    cs seen.

(** The grounding part of the loop body (lines 147-154). *)
Definition on_grounding (c : Chunk) (d : Decoder) : Decoder :=
  match groundingChunks c with
  | Some newChunks =>
      let uniqueNewChunks := List.filter (is_unique_new (processedSourceUris d)) newChunks in
      if (0 <? length uniqueNewChunks)%nat then
        {| jsonBuffer := jsonBuffer d;
           processedSourceUris := add_uris uniqueNewChunks (processedSourceUris d);
           app := setSources (fun prev => prev ++ uniqueNewChunks) (app d) |}
      else d
  | None => d
  end.

(** The text part of the loop body (lines 156-173). *)
Definition on_text (c : Chunk) (d : Decoder) : Decoder :=
  match text c with
  | Some t =>
      if nonempty t then
        let '(buffer, a) := while_lines on_lead_line (jsonBuffer d ++ t) (app d) in
        {| jsonBuffer := buffer;
           processedSourceUris := processedSourceUris d;
           app := a |}
      else d
  | None => d
  end.

Definition on_chunk (c : Chunk) (d : Decoder) : Decoder :=
  on_text c (on_grounding c d).

(** What iterating the stream gives next: a chunk, or an exception. *)
Inductive stream_item : Type :=
| Next (c : Chunk)
| Fails (err : thrown).

(** [for await (const chunk of stream) { ... }]: the decoder when the stream
    ends, or the decoder as it stood with the exception that ended the loop. *)
Fixpoint for_await (items : list stream_item) (d : Decoder) : Decoder * option thrown :=
  match items with
  | [] => (d, None)
  | Next c :: rest => for_await rest (on_chunk c d)
  | Fails err :: _ => (d, Some err)
  end.

(** After the loop (lines 176-183):
<<
    if (jsonBuffer.trim()) {
      try { const parsedLead = JSON.parse(jsonBuffer.trim());
            setLeads(prevLeads => [...prevLeads, parsedLead]); }
      catch (e) { console.warn("Could not parse final JSON buffer:", jsonBuffer.trim(), e); }
    }
>> *)
Definition flush (jsonBuffer : jsstring) (a : App) : App :=
  if nonempty (trim jsonBuffer) then
    match JSON.parse (trim jsonBuffer) with
    | Some parsedLead => setLeads (fun prevLeads => prevLeads ++ [parsedLead]) a
    | None =>
        log (Warn (lit "Could not parse final JSON buffer:") (trim jsonBuffer) CaughtSyntaxError) a
    end
  else a.

(** The [catch] block (lines 185-191). *)
Definition errorMessage (err : thrown) : jsstring :=
  match err with
  | ErrorObject message => message
  | OtherValue =>
      lit "An unexpected error occurred. Please check the console and your API key."
  end.

Definition on_error (err : thrown) (a : App) : App :=
  setError (Some (errorMessage err)) (log (LogError err) a).

(** The [finally] block: [setLeads] gets the identity here (its updater only
    decides [canSaveSearch]). *)
Definition finally (a : App) : App :=
  setLeads (fun currentLeads => currentLeads) (setIsLoading false a).

(** What [ai.models.generateContentStream] gives: a rejection (also when the
    client cannot be built), or the stream. *)
Inductive generate_result : Type :=
| Rejected (err : thrown)
| Stream (items : list stream_item).

(** The state after the resets that open [runSearch]. *)
Definition reset (a : App) : App :=
  {| leads := []; sources := []; error := None; isLoading := true;
     console := console a |}.

(** The decoder a search starts with. *)
Definition start (a : App) : Decoder :=
  {| jsonBuffer := []; processedSourceUris := ∅; app := a |}.

(** The [try] block from the loop on: the stream is decoded and, when it ends
    without an exception, the rest of the buffer is flushed. *)
Definition decode (items : list stream_item) (a : App) : App :=
  match for_await items (start a) with
  | (d, None) => flush (jsonBuffer d) (app d)
  | (d, Some err) => on_error err (app d)
  end.

Definition runSearch (apiKey : jsstring) (response : generate_result) (a : App) : App :=
  let a := reset a in
  if nonempty apiKey then
    finally
      match response with
      | Rejected err => on_error err a
      | Stream items => decode items a
      end
  else
    setIsLoading false
      (setError (Some (lit "API Key is not set. Please set your API key above.")) a).

(** The state of a freshly mounted component (the [useState] defaults). *)
Definition initial : App :=
  {| leads := []; sources := []; error := None; isLoading := false; console := [] |}.

(** The invariant behind the deduplication: every source on display has a
    uri, and that uri is in [processedSourceUris]. *)
Definition recorded (d : Decoder) : Prop :=
  forall g, g ∈ sources (app d) ->
    exists w, web g = Some w /\ uri w ∈ processedSourceUris d.

(** A chunk that carries text only, and one that carries grounding only. *)
Definition text_chunk (t : jsstring) : Chunk :=
  {| groundingChunks := None; text := Some t |}.

Definition grounding_chunk (cs : list GroundingChunk) : Chunk :=
  {| groundingChunks := Some cs; text := None |}.

End Direct.

(** ** The envelope version of [runSearch] ([src/index.tsx]) *)

Module Envelope.

(** The component state [runSearch] writes, and the console.  [sources]
    holds whatever the [sources] envelopes carried (the cast to
    [GroundingChunk[]] checks nothing).  [render_crashed] records that a state
    updater threw: React runs the updater outside the [try] of [runSearch],
    so the exception never reaches its [catch]. *)
Record App : Type := {
  leads : list JSON.value;
  sources : list JSON.value;
  error : option jsstring;
  isLoading : bool;
  console : list log_entry;
  render_crashed : bool
}.

Definition setLeads (f : list JSON.value -> list JSON.value) (a : App) : App :=
  {| leads := f (leads a); sources := sources a; error := error a;
     isLoading := isLoading a; console := console a;
     render_crashed := render_crashed a |}.

Definition setError (e : option jsstring) (a : App) : App :=
  {| leads := leads a; sources := sources a; error := e;
     isLoading := isLoading a; console := console a;
     render_crashed := render_crashed a |}.

Definition setIsLoading (b : bool) (a : App) : App :=
  {| leads := leads a; sources := sources a; error := error a;
     isLoading := b; console := console a;
     render_crashed := render_crashed a |}.

Definition log (e : log_entry) (a : App) : App :=
  {| leads := leads a; sources := sources a; error := error a;
     isLoading := isLoading a; console := console a ++ [e];
     render_crashed := render_crashed a |}.

(** [setSources(prevSources => [...prevSources, ...newChunks])]
    (lines 161-163, under the comment "Server sends unique sources, so just
    append them"). *)
Definition append_sources (newChunks : JSON.value) (a : App) : App :=
  match JSON.spread newChunks with
  | Some chunks =>
      {| leads := leads a; sources := sources a ++ chunks; error := error a;
         isLoading := isLoading a; console := console a;
         render_crashed := render_crashed a |}
  | None =>
      {| leads := leads a; sources := sources a; error := error a;
         isLoading := isLoading a; console := console a;
         render_crashed := true |}
  end.

(** The body of the loop over [jsonBuffer] (lines 151-158). *)
Definition on_lead_line (leadLine : jsstring) (a : App) : App :=
  if nonempty leadLine then
    match JSON.parse leadLine with
    | Some parsedLead => setLeads (fun prevLeads => prevLeads ++ [parsedLead]) a
    | None => log (Warn (lit "Could not parse JSON lead line:") leadLine CaughtSyntaxError) a
    end
  else a.

(** After the read loop (lines 172-180). *)
Definition flush (jsonBuffer : jsstring) (a : App) : App :=
  if nonempty (trim jsonBuffer) then
    match JSON.parse (trim jsonBuffer) with
    | Some parsedLead => setLeads (fun prevLeads => prevLeads ++ [parsedLead]) a
    | None =>
        log (Warn (lit "Could not parse final JSON buffer:") (trim jsonBuffer) CaughtSyntaxError) a
    end
  else a.

(** The [catch] block (lines 182-192). *)
Definition errorMessage (err : thrown) : jsstring :=
  match err with
  | ErrorObject message =>
      if includes (lit "JSON") message
      then lit "Failed to process the response. The format might be invalid."
      else message
  | OtherValue => lit "An unexpected error occurred. Please try again."
  end.

Definition on_error (err : thrown) (a : App) : App :=
  setError (Some (errorMessage err)) (log (LogError err) a).

(** The [finally] block. *)
Definition finally (a : App) : App :=
  setLeads (fun currentLeads => currentLeads) (setIsLoading false a).

Definition reset (a : App) : App :=
  {| leads := []; sources := []; error := None; isLoading := true;
     console := console a; render_crashed := render_crashed a |}.

(** What [reader.read()] gives before [done]: a fragment, already decoded to
    text by [decoder.decode(value, {stream: true})], or a rejection. *)
Inductive read_result : Type :=
| Value (fragment : jsstring)
| ReadFails (err : thrown).

(** The response of [fetch]: [text] is what [response.text()] resolves to or
    rejects with, [body] the reads of the body's reader up to [done]. *)
Record Response : Type := {
  ok : bool;
  status : N;
  text : thrown + jsstring;
  body : option (list read_result)
}.

Inductive fetch_result : Type :=
| FetchRejected (err : thrown)
| Responded (response : Response).

(** The local variables of [runSearch] with the state. *)
Record Decoder : Type := {
  streamBuffer : jsstring;
  jsonBuffer : jsstring;
  app : App
}.

Definition start (a : App) : Decoder :=
  {| streamBuffer := []; jsonBuffer := []; app := a |}.

Section WithNumberToString.

Variable Number_toString : jsstring -> jsstring.

(** The [try] body for a parsed envelope (lines 144-164); the [TypeError]s it
    can raise end in the [catch] of line 165. *)
Definition on_message (line : jsstring) (message : JSON.value)
  (st : jsstring * App) : jsstring * App :=
  let '(jsonBuffer, a) := st in
  let type_error :=
    (jsonBuffer, log (Warn (lit "Could not parse stream message:") line CaughtTypeError) a) in
  match JSON.get (lit "type") message, JSON.get (lit "payload") message with
  | Some type, Some payload =>
      if JSON.is_string (lit "content") type && JSON.truthy payload then
        match payload with
        | Some p =>
            match JSON.to_string Number_toString p with
            | Some s => while_lines on_lead_line (jsonBuffer ++ s) a
            | None => type_error
            end
        | None => st
        end
      else if JSON.is_string (lit "sources") type && JSON.truthy payload then
        match payload with
        | Some newChunks => (jsonBuffer, append_sources newChunks a)
        | None => st
        end
      else st
  | _, _ => type_error
  end.

(** The body of the loop over [streamBuffer] (lines 140-168). *)
Definition on_stream_line (line : jsstring) (st : jsstring * App) : jsstring * App :=
  if nonempty line then
    match JSON.parse line with
    | Some message => on_message line message st
    | None =>
        (fst st, log (Warn (lit "Could not parse stream message:") line CaughtSyntaxError) (snd st))
    end
  else st.

(** One turn of the read loop (lines 133-169). *)
Definition on_read (fragment : jsstring) (d : Decoder) : Decoder :=
  let '(buffer, (inner, a)) :=
    while_lines on_stream_line (streamBuffer d ++ fragment) (jsonBuffer d, app d) in
  {| streamBuffer := buffer; jsonBuffer := inner; app := a |}.

(** [while (true) { const { done, value } = await reader.read(); ... }] *)
Fixpoint read_loop (reads : list read_result) (d : Decoder) : Decoder * option thrown :=
  match reads with
  | [] => (d, None)
  | Value fragment :: rest => read_loop rest (on_read fragment d)
  | ReadFails err :: _ => (d, Some err)
  end.

(** The [try] block from the loop on; note that only [jsonBuffer] is looked
    at after the loop. *)
Definition decode (reads : list read_result) (a : App) : App :=
  match read_loop reads (start a) with
  | (d, None) => flush (jsonBuffer d) (app d)
  | (d, Some err) => on_error err (app d)
  end.

(** The decimal digits of a status code. *)
Definition decimal (n : N) : jsstring :=
  lit (NilEmpty.string_of_uint (N.to_uint n)).

Definition runSearch (response : fetch_result) (a : App) : App :=
  let a := reset a in
  finally
    match response with
    | FetchRejected err => on_error err a
    | Responded r =>
        if ok r then
          match body r with
          | Some reads => decode reads a
          | None => on_error (ErrorObject (lit "Response body is missing.")) a
          end
        else
          match text r with
          | inr errorText =>
              on_error
                (ErrorObject
                   (lit "Failed to fetch from server: " ++ decimal (status r)
                      ++ lit " " ++ errorText)) a
          | inl err => on_error err a
          end
    end.

End WithNumberToString.

(** Modelled from the spec: the server function behind
    [/.netlify/functions/generate], which writes the response body, is not
    among the sources.  Its lines are JSON envelopes of shape
    [{"type": "content", "payload": <string fragment>}] or
    [{"type": "sources", "payload": [...]}]; they are given here as parsed
    values and, for content, as the line [JSON.stringify] writes. *)
Definition content_message (payload : jsstring) : JSON.value :=
  JSON.JObject [(lit "type", JSON.JString (lit "content"));
                (lit "payload", JSON.JString payload)].

Definition sources_message (payload : JSON.value) : JSON.value :=
  JSON.JObject [(lit "type", JSON.JString (lit "sources")); (lit "payload", payload)].

Definition content_line (payload : jsstring) : jsstring :=
  lit "{'type':'content','payload':" ++ JSON.quote payload ++ lit "}".

(** A response that [fetch] resolves to with [ok] set and a readable body. *)
Definition ok_response (reads : list read_result) : fetch_result :=
  Responded {| ok := true; status := 200; text := inr []; body := Some reads |}.

(** The state of a freshly mounted component (the [useState] defaults). *)
Definition initial : App :=
  {| leads := []; sources := []; error := None; isLoading := false;
     console := []; render_crashed := false |}.



(** A stand-in for [Number_toString] in closed examples (none of them
    converts a number): the lexeme itself. *)
Definition lexeme_text (lexeme : jsstring) : jsstring := lexeme.

End Envelope.

(** ** States that show the same

    What the page shows of a search: the leads, the sources, the error and
    the loading flag. *)

Definition direct_same_shown (a a' : Direct.App) : Prop :=
  Direct.leads a = Direct.leads a' /\ Direct.sources a = Direct.sources a'
  /\ Direct.error a = Direct.error a' /\ Direct.isLoading a = Direct.isLoading a'.

(** Two decoders of the SDK version that differ at most in the console. *)
Definition direct_same_run (d d' : Direct.Decoder) : Prop :=
  Direct.jsonBuffer d = Direct.jsonBuffer d'
  /\ Direct.processedSourceUris d = Direct.processedSourceUris d'
  /\ direct_same_shown (Direct.app d) (Direct.app d').

Definition envelope_same_shown (a a' : Envelope.App) : Prop :=
  Envelope.leads a = Envelope.leads a' /\ Envelope.sources a = Envelope.sources a'
  /\ Envelope.error a = Envelope.error a'
  /\ Envelope.isLoading a = Envelope.isLoading a'.

(** The converse of [Direct.recorded]: every uri that was seen belongs to a
    source on display, and the sources on display have a uri that is not
    empty. *)
Definition direct_seen_is_shown (d : Direct.Decoder) : Prop :=
  (forall u, u ∈ Direct.processedSourceUris d ->
     exists g w, g ∈ Direct.sources (Direct.app d)
                 /\ Direct.web g = Some w /\ Direct.uri w = u)
  /\ (forall g, g ∈ Direct.sources (Direct.app d) ->
        exists w, Direct.web g = Some w /\ nonempty (Direct.uri w) = true).

(** Two states of the SDK version with the same leads and the same console:
    what the text of the chunks decides. *)
Definition direct_same_decoded (a a' : Direct.App) : Prop :=
  Direct.leads a = Direct.leads a' /\ Direct.console a = Direct.console a'.

(** A chunk without its text. *)
Definition grounding_only (c : Direct.Chunk) : Direct.Chunk :=
  {| Direct.groundingChunks := Direct.groundingChunks c; Direct.text := None |}.

(** ** The handlers around [runSearch]

    [findLeads], [handleSavedSearchClick], [saveSearch], [copyEmails],
    [generateCSVContent] and [saveToGist] are the same in both source files;
    [handleSaveKey] and the stored key belong to the SDK version. *)

Module Ui.

(** [xs.join(sep)] for an array of strings. *)
Fixpoint join (sep : jsstring) (xs : list jsstring) : jsstring :=
  match xs with
  | [] => []
  | x :: r =>
      match r with
      | [] => x
      | _ :: _ => x ++ sep ++ join sep r
      end
  end.

(** *** The search form *)

(** The fields of the form and the query of the map preview. *)
Record Form : Type := {
  keyword : jsstring;
  location : jsstring;
  radius : jsstring;
  mapQuery : jsstring
}.

(** The query [findLeads] builds: the keyword in double quotes, [ in ], the
    location in double quotes and, when [radius.trim()] is not empty,
    [ within a ${radius} km radius].  (In [lit], an apostrophe stands for the
    double quote.) *)
Definition fullQuery (f : Form) : jsstring :=
  lit "'" ++ keyword f ++ lit "' in '" ++ location f ++ lit "'"
  ++ (if nonempty (trim (radius f))
      then lit " within a " ++ radius f ++ lit " km radius"
      else []).

(** [findLeads]: the form afterwards and the query [runSearch] is called
    with, if it is called. *)
Definition findLeads (f : Form) : Form * option jsstring :=
  if negb (nonempty (trim (keyword f))) || negb (nonempty (trim (location f)))
  then (f, None)
  else ({| keyword := keyword f; location := location f; radius := radius f;
           mapQuery := fullQuery f |},
        Some (fullQuery f)).

(** Line terminators, which [.] does not match. *)
Definition is_line_terminator (c : N) : bool :=
  (c =? 10) || (c =? 13) || (c =? 8232) || (c =? 8233).

(** [(.*?)] followed by the rest of a pattern [k]: the shortest run of
    characters other than line terminators after which [k] matches. *)
Fixpoint lazy_dot {A} (k : jsstring -> option A) (acc s : jsstring)
  : option (jsstring * A) :=
  match k s with
  | Some a => Some (rev acc, a)
  | None =>
      match s with
      | [] => None
      | c :: r => if is_line_terminator c then None else lazy_dot k (c :: acc) r
      end
  end.

(** [(?: within a (\d+) km radius)?] at [s]: the digits when the group
    matches.  [\d+] takes every digit there is; giving one back cannot help,
    since what follows must be a space. *)
Definition match_radius (s : jsstring) : option jsstring :=
  match JSON.strip_prefix (lit " within a ") s with
  | Some r =>
      let '(ds, r') := JSON.span_digits r in
      if nonempty ds && starts_with (lit " km radius") r' then Some ds else None
  | None => None
  end.

(** The pattern of [handleSavedSearchClick] at the start of [s]: a double
    quote, [(.*?)], a double quote, [ in ], a double quote, [(.*?)], a double
    quote, and the optional radius group.  The result holds the three groups,
    the third [None] when it took no part. *)
Definition match_here (s : jsstring) : option (jsstring * jsstring * option jsstring) :=
  match s with
  | [] => None
  | q :: r =>
      if q =? 34 then
        match
          lazy_dot
            (fun r1 =>
               match JSON.strip_prefix (lit "' in '") r1 with
               | Some r2 =>
                   lazy_dot
                     (fun r3 =>
                        match r3 with
                        | [] => None
                        | q' :: r4 => if q' =? 34 then Some (match_radius r4) else None
                        end) [] r2
               | None => None
               end) [] r
        with
        | Some (g1, (g2, g3)) => Some (g1, g2, g3)
        | None => None
        end
      else None
  end.

(** A character that can stand in a keyword or a location without confusing
    the pattern: neither a double quote nor a line terminator. *)
Definition plain (c : N) : bool := negb (c =? 34) && negb (is_line_terminator c).

(** [query.match(...)]: the leftmost match. *)
Fixpoint query_match (query : jsstring) : option (jsstring * jsstring * option jsstring) :=
  match match_here query with
  | Some parts => Some parts
  | None =>
      match query with
      | [] => None
      | _ :: r => query_match r
      end
  end.

(** [handleSavedSearchClick]: the form afterwards and the query [runSearch]
    is called with. *)
Definition handleSavedSearchClick (query : jsstring) (f : Form) : Form * jsstring :=
  (match query_match query with
   | Some (g1, g2, g3) =>
       {| keyword := g1; location := g2;
          radius := match g3 with Some ds => ds | None => [] end;
          mapQuery := query |}
   | None => f
   end, query).

(** *** Saved searches *)

(** [JSON.stringify] of a string: the escapes of [JSON.escape_unit], pairs of
    surrogates as they are, and a surrogate on its own as [\uXXXX]. *)
Definition hex4 (c : N) : jsstring :=
  [JSON.hex_char (c / 4096); JSON.hex_char ((c / 256) mod 16);
   JSON.hex_char ((c / 16) mod 16); JSON.hex_char (c mod 16)].

Definition is_high_surrogate (c : N) : bool := (55296 <=? c) && (c <=? 56319).
Definition is_low_surrogate (c : N) : bool := (56320 <=? c) && (c <=? 57343).

Fixpoint stringify_units (s : jsstring) : jsstring :=
  match s with
  | [] => []
  | c :: r =>
      if is_high_surrogate c then
        match r with
        | d :: r' =>
            if is_low_surrogate d then c :: d :: stringify_units r'
            else 92 :: 117 :: hex4 c ++ stringify_units r
        | [] => 92 :: 117 :: hex4 c
        end
      else if is_low_surrogate c then 92 :: 117 :: hex4 c ++ stringify_units r
      else JSON.escape_unit c ++ stringify_units r
  end.

Definition stringify_string (s : jsstring) : jsstring :=
  34 :: stringify_units s ++ [34].

(** [JSON.stringify] of an array of strings. *)
Definition stringify_strings (xs : list jsstring) : jsstring :=
  91 :: join [44] (map stringify_string xs) ++ [93].

(** The saved searches, the search they may grow by, and the item
    [savedLeadSearches] of the local storage. *)
Record Saved : Type := {
  savedSearches : JSON.value;
  lastSearch : jsstring;
  canSaveSearch : bool;
  stored : option jsstring
}.

(** The strings of an array of strings: what [savedSearches.filter] with
    [s.toLowerCase()] needs, or it throws. *)
Definition strings_of (v : JSON.value) : option (list jsstring) :=
  match v with
  | JSON.JArray xs =>
      mapM (fun x => match x with JSON.JString s => Some s | _ => None end) xs
  | _ => None
  end.

Section SavedSearches.

(** [s.toLowerCase()] follows the Unicode case tables; every result below
    holds whatever it computes. *)
Variable toLowerCase : jsstring -> jsstring.

(** [[lastSearch, ...savedSearches.filter(s => s.toLowerCase() !==
    lastSearch.toLowerCase())]] *)
Definition updatedSearches (lastSearch : jsstring) (saved : list jsstring) : list jsstring :=
  lastSearch
  :: List.filter (fun s => negb (bool_decide (toLowerCase s = toLowerCase lastSearch))) saved.

(** [saveSearch]: [None] when the filter throws. *)
Definition saveSearch (st : Saved) : option Saved :=
  if negb (nonempty (lastSearch st)) || negb (canSaveSearch st) then Some st
  else
    match strings_of (savedSearches st) with
    | Some saved =>
        let updated := updatedSearches (lastSearch st) saved in
        Some {| savedSearches := JSON.JArray (map JSON.JString updated);
                lastSearch := lastSearch st;
                canSaveSearch := false;
                stored := Some (stringify_strings updated) |}
    | None => None
    end.

End SavedSearches.

(** The part of the mount effect that reads the saved searches:
<<
    const storedSearches = localStorage.getItem('savedLeadSearches');
    if (storedSearches) { setSavedSearches(JSON.parse(storedSearches)); }
>>
    with the [catch] that only logs. *)
Definition load_savedSearches (st : Saved) : Saved :=
  match stored st with
  | Some storedSearches =>
      if nonempty storedSearches then
        match JSON.parse storedSearches with
        | Some v =>
            {| savedSearches := v; lastSearch := lastSearch st;
               canSaveSearch := canSaveSearch st; stored := stored st |}
        | None => st
        end
      else st
  | None => st
  end.

(** *** The API key (SDK version) *)

Record KeyState : Type := {
  apiKey : jsstring;
  tempApiKey : jsstring;
  isKeySaved : bool;
  keyError : option jsstring;
  storedKey : option jsstring
}.

(** [handleSaveKey] (lines 91-101 of the SDK version). *)
Definition handleSaveKey (st : KeyState) : KeyState :=
  if nonempty (trim (tempApiKey st)) then
    {| apiKey := trim (tempApiKey st); tempApiKey := tempApiKey st;
       isKeySaved := true; keyError := None;
       storedKey := Some (trim (tempApiKey st)) |}
  else
    {| apiKey := apiKey st; tempApiKey := tempApiKey st;
       isKeySaved := isKeySaved st;
       keyError := Some (lit "Please enter a valid API Key.");
       storedKey := storedKey st |}.

(** The part of the mount effect that reads the key (lines 64-69). *)
Definition load_key (st : KeyState) : KeyState :=
  match storedKey st with
  | Some savedKey =>
      if nonempty savedKey then
        {| apiKey := savedKey; tempApiKey := savedKey; isKeySaved := true;
           keyError := keyError st; storedKey := storedKey st |}
      else st
  | None => st
  end.

(** *** Copying and exporting the leads *)

Section ExportLeads.

Variable Number_toString : jsstring -> jsstring.

(** An element of [xs.join(sep)]: [undefined] and [null] give the empty
    string. *)
Definition join_text (v : option JSON.value) : option jsstring :=
  match v with
  | None | Some JSON.JNull => Some []
  | Some x => JSON.to_string Number_toString x
  end.

(** The text [copyEmails] hands to the clipboard:
<<
    const emails = leads.map(lead => lead.email).filter(email => email).join(', ');
    if (emails) { navigator.clipboard.writeText(emails)... }
>>
    The outer [None] is a [TypeError]; the inner one, nothing written. *)
Definition copyEmails (leads : list JSON.value) : option (option jsstring) :=
  match mapM (JSON.get (lit "email")) leads with
  | Some all =>
      match mapM join_text (List.filter JSON.truthy all) with
      | Some texts =>
          let emails := join (lit ", ") texts in
          Some (if nonempty emails then Some emails else None)
      | None => None
      end
  | None => None
  end.

(** The keys of a row, in the order of the columns. *)
Definition columns : list jsstring :=
  [lit "name"; lit "category"; lit "rating"; lit "reviewCount"; lit "address";
   lit "phone"; lit "website"; lit "email"; lit "hours"].

Definition headers : jsstring :=
  lit "Name,Category,Rating,Review_Count,Address,Phone,Website,Email,Hours" ++ [LF].

(** [String(val === null || val === undefined ? '' : val)] *)
Definition cell_text (val : option JSON.value) : option jsstring :=
  match val with
  | None | Some JSON.JNull => Some []
  | Some v => JSON.to_string Number_toString v
  end.

(** The nine texts of a lead's row; [None] is a [TypeError]. *)
Definition lead_cells (lead : JSON.value) : option (list jsstring) :=
  mapM (fun key =>
          match JSON.get key lead with
          | Some val => cell_text val
          | None => None
          end) columns.

(** A cell as the code writes it: every double quote of [str] doubled, and
    the whole between double quotes. *)
Definition csv_field (str : jsstring) : jsstring :=
  34 :: flat_map (fun c => if c =? 34 then [34; 34] else [c]) str ++ [34].

Definition csv_row (cells : list jsstring) : jsstring :=
  join [44] (map csv_field cells).

(** [generateCSVContent] (lines 253-274 of [src/index.tsx]); [None] is a
    [TypeError]. *)
Definition generateCSVContent (leads : list JSON.value) : option jsstring :=
  match leads with
  | [] => Some []
  | _ :: _ =>
      match mapM lead_cells leads with
      | Some rows => Some (headers ++ join [LF] (map csv_row rows))
      | None => None
      end
  end.

End ExportLeads.

(** A reader of comma-separated values in the manner of RFC 4180, with the
    line feed as record separator: the yardstick for what
    [generateCSVContent] writes.  [field] and [row] are built in reverse. *)
Inductive csv_state : Type := FieldStart | Unquoted | Quoted | QuoteInQuoted.

Definition end_field (field : jsstring) (row : list jsstring) : list jsstring :=
  rev field :: row.

Definition end_row (field : jsstring) (row : list jsstring)
  (rows : list (list jsstring)) : list (list jsstring) :=
  rev (end_field field row) :: rows.

Fixpoint read_csv (st : csv_state) (field : jsstring) (row : list jsstring)
  (rows : list (list jsstring)) (s : jsstring) : option (list (list jsstring)) :=
  match s with
  | [] =>
      match st with
      | Quoted => None
      | FieldStart =>
          match row with
          | [] => Some (rev rows)
          | _ :: _ => Some (rev (end_row field row rows))
          end
      | Unquoted | QuoteInQuoted => Some (rev (end_row field row rows))
      end
  | c :: r =>
      match st with
      | FieldStart =>
          if c =? 34 then read_csv Quoted [] row rows r
          else if c =? 44 then read_csv FieldStart [] (end_field [] row) rows r
          else if c =? LF then read_csv FieldStart [] [] (end_row [] row rows) r
          else read_csv Unquoted [c] row rows r
      | Unquoted =>
          if c =? 34 then None
          else if c =? 44 then read_csv FieldStart [] (end_field field row) rows r
          else if c =? LF then read_csv FieldStart [] [] (end_row field row rows) r
          else read_csv Unquoted (c :: field) row rows r
      | Quoted =>
          if c =? 34 then read_csv QuoteInQuoted field row rows r
          else read_csv Quoted (c :: field) row rows r
      | QuoteInQuoted =>
          if c =? 34 then read_csv Quoted (34 :: field) row rows r
          else if c =? 44 then read_csv FieldStart [] (end_field field row) rows r
          else if c =? LF then read_csv FieldStart [] [] (end_row field row rows) r
          else None
      end
  end.

Definition parse_csv (s : jsstring) : option (list (list jsstring)) :=
  read_csv FieldStart [] [] [] s.

(** The cells of the header line. *)
Definition header_cells : list jsstring :=
  [lit "Name"; lit "Category"; lit "Rating"; lit "Review_Count"; lit "Address";
   lit "Phone"; lit "Website"; lit "Email"; lit "Hours"].

(** The email of a lead when it is a string that is not empty, and the leads
    whose [email] is a string, [null] or missing (what the prompt asks the
    generator for). *)
Definition email_of (lead : JSON.value) : option jsstring :=
  match JSON.get (lit "email") lead with
  | Some (Some (JSON.JString s)) => if nonempty s then Some s else None
  | _ => None
  end.

Definition email_is_text (lead : JSON.value) : bool :=
  match JSON.get (lit "email") lead with
  | Some None | Some (Some JSON.JNull) | Some (Some (JSON.JString _)) => true
  | _ => false
  end.

(** *** Offering to save a search *)

Section OfferSaving.

Variable toLowerCase : jsstring -> jsstring.

(** [xs.some(s => s.toLowerCase() === query.toLowerCase())]: it stops at the
    first element that answers yes; an element that is no string throws
    ([None]). *)
Fixpoint some_same_search (query : jsstring) (xs : list JSON.value) : option bool :=
  match xs with
  | [] => Some false
  | JSON.JString s :: r =>
      if bool_decide (toLowerCase s = toLowerCase query) then Some true
      else some_same_search query r
  | _ :: _ => None
  end.

(** [canSaveSearch] at the end of [runSearch]: the start of the search sets
    it to [false], and the [finally] block (lines 193-205 of
    [src/index.tsx]) to [true] when there are leads and the query is not
    among the saved searches.  [None]: [savedSearches.some] throws. *)
Definition finally_canSaveSearch (currentLeads : list JSON.value)
  (savedSearches : JSON.value) (query : jsstring) : option bool :=
  match currentLeads with
  | [] => Some false
  | _ :: _ =>
      match savedSearches with
      | JSON.JArray xs =>
          match some_same_search query xs with
          | Some isSaved => Some (negb isSaved)
          | None => None
          end
      | _ => None
      end
  end.

End OfferSaving.

(** *** The request of [saveToGist] *)

(** [s.replace(/ /g, '_')] *)
Definition replace_spaces (s : jsstring) : jsstring :=
  map (fun c => if c =? 32 then 95 else c) s.

Definition gist_description (lastSearch : jsstring) : jsstring :=
  lit "Business leads for: " ++ lastSearch.

Definition gist_fileName (keyword location : jsstring) : jsstring :=
  replace_spaces keyword ++ lit "_" ++ replace_spaces location ++ lit "_leads.csv".

(** The body of the request (lines 307-316 of [src/index.tsx]):
    [JSON.stringify] of an object with the keys [description], [public] and
    [files], the last one holding under the key [fileName] an object with
    the key [content]. *)
Definition gist_body (description fileName csvContent : jsstring) : jsstring :=
  lit "{'description':" ++ stringify_string description
  ++ lit ",'public':true,'files':{" ++ stringify_string fileName
  ++ lit ":{'content':" ++ stringify_string csvContent ++ lit "}}}".

End Ui.

(** ** The example of the specification *)

(** The two fragments of the specification's example, and the two records
    they hold. *)
Definition fragment_1 : jsstring := lit "{'name':'A'".

Definition fragment_2 : jsstring :=
  lit ",'address':'x'}" ++ [LF] ++ lit "{'name':'B','address':'y'}" ++ [LF].

Definition record_A : JSON.value :=
  JSON.JObject [(lit "name", JSON.JString (lit "A")); (lit "address", JSON.JString (lit "x"))].

Definition record_B : JSON.value :=
  JSON.JObject [(lit "name", JSON.JString (lit "B")); (lit "address", JSON.JString (lit "y"))].

(** * Properties *)

(** ** Strings *)

Lemma indexOf_lt c s i : indexOf c s = Some i -> (i < length s)%nat.
Proof.
  revert i. induction s as [|x r IH]; intros i; simpl; [discriminate|].
  destruct (x =? c).
  - intros [= <-]. lia.
  - destruct (indexOf c r) as [j|]; simpl; [|discriminate].
    intros [= <-]. specialize (IH j eq_refl). lia.
Qed.

Lemma indexOf_app_Some c s t i :
  indexOf c s = Some i -> indexOf c (s ++ t) = Some i.
Proof.
  revert i. induction s as [|x r IH]; intros i; simpl; [discriminate|].
  destruct (x =? c); [done|].
  destruct (indexOf c r) as [j|]; simpl; [|discriminate].
  intros [= <-]. by rewrite (IH j eq_refl).
Qed.

Lemma indexOf_app_None c s t :
  indexOf c s = None -> indexOf c t = None -> indexOf c (s ++ t) = None.
Proof.
  intros Hs Ht. induction s as [|x r IH]; simpl in *; [done|].
  destruct (x =? c); [discriminate|].
  destruct (indexOf c r); [discriminate|]. by rewrite IH.
Qed.

Lemma indexOf_here c l r :
  indexOf c l = None -> indexOf c (l ++ c :: r) = Some (length l).
Proof.
  intros Hl. induction l as [|x l IH]; simpl in *.
  - by rewrite N.eqb_refl.
  - destruct (x =? c); [discriminate|].
    destruct (indexOf c l); [discriminate|]. by rewrite IH.
Qed.

Lemma substring_0 s i : substring s 0 i = take i s.
Proof. unfold substring. simpl. by rewrite Nat.sub_0_r. Qed.

Lemma drop_past {A} (l : list A) c r : drop (S (length l)) (l ++ c :: r) = r.
Proof. induction l as [|x l IH]; [done|]. apply IH. Qed.

Lemma unlines_cons l ls : unlines (l :: ls) = l ++ LF :: unlines ls.
Proof. unfold unlines. simpl. by rewrite <- app_assoc. Qed.

Lemma unlines_app ls1 ls2 : unlines (ls1 ++ ls2) = unlines ls1 ++ unlines ls2.
Proof. unfold unlines. by rewrite map_app, concat_app. Qed.

(** A text that neither starts nor ends with white space is its own trim. *)
Lemma trim_keep a m z :
  is_trim_space a = false -> is_trim_space z = false ->
  trim (a :: m ++ [z]) = a :: m ++ [z].
Proof.
  intros Ha Hz. unfold trim, trimEnd.
  cbn [trimStart]. rewrite Ha.
  assert (rev (a :: m ++ [z]) = z :: rev m ++ [a]) as ->.
  { cbn [rev]. by rewrite rev_app_distr. }
  cbn [trimStart]. rewrite Hz.
  cbn [rev]. by rewrite rev_app_distr, rev_involutive.
Qed.

Lemma trim_nil : trim [] = [].
Proof. reflexivity. Qed.

(** ** The line loop *)

Section LineLoopFacts.

Context {St : Type}.
Variable body : jsstring -> St -> St.

(** The loop stops because no newline is left, never because the fuel is
    spent: any two bounds above the length of the buffer give the same run. *)
Lemma line_loop_fuel f1 f2 b st :
  (length b < f1)%nat -> (length b < f2)%nat ->
  line_loop body f1 b st = line_loop body f2 b st.
Proof.
  revert f2 b st. induction f1 as [|f1 IH]; intros f2 b st H1 H2; [lia|].
  destruct f2 as [|f2]; [lia|]. simpl.
  destruct (indexOf LF b) as [i|] eqn:Hi; [|done].
  apply indexOf_lt in Hi.
  apply IH; unfold substring_from; rewrite length_drop; lia.
Qed.

Lemma while_lines_done b st :
  indexOf LF b = None -> while_lines body b st = (b, st).
Proof. intros Hb. unfold while_lines. simpl. by rewrite Hb. Qed.

Lemma while_lines_step b st i :
  indexOf LF b = Some i ->
  while_lines body b st
  = while_lines body (drop (S i) b) (body (trim (take i b)) st).
Proof.
  intros Hi. unfold while_lines at 1.
  cbn [line_loop]. rewrite Hi, substring_0.
  unfold substring_from, while_lines. rewrite Nat.add_1_r.
  apply indexOf_lt in Hi.
  apply line_loop_fuel; rewrite length_drop; lia.
Qed.

(** An induction principle that follows the iterations of the loop. *)
Lemma while_lines_ind (P : jsstring -> St -> Prop) :
  (forall b st, indexOf LF b = None -> P b st) ->
  (forall b st i, indexOf LF b = Some i ->
     P (drop (S i) b) (body (trim (take i b)) st) -> P b st) ->
  forall b st, P b st.
Proof.
  intros Hdone Hstep b.
  remember (length b) as n eqn:Hn. revert b Hn.
  induction n as [n IH] using lt_wf_ind. intros b -> st.
  destruct (indexOf LF b) as [i|] eqn:Hi; [|by apply Hdone].
  apply (Hstep b st i Hi).
  apply (IH (length (drop (S i) b))); [|done].
  apply indexOf_lt in Hi. rewrite length_drop. lia.
Qed.

(** What the loop leaves in the buffer holds no newline. *)
Lemma while_lines_drained b st :
  indexOf LF (while_lines body b st).1 = None.
Proof.
  revert b st. apply while_lines_ind; intros b st.
  - intros Hb. by rewrite while_lines_done.
  - intros i Hi IH. by rewrite (while_lines_step b st i Hi).
Qed.

(** Text that arrives later can as well be there from the start. *)
Lemma while_lines_app f b st :
  while_lines body ((while_lines body b st).1 ++ f) (while_lines body b st).2
  = while_lines body (b ++ f) st.
Proof.
  revert b st. apply while_lines_ind; intros b st.
  - intros Hb. by rewrite (while_lines_done b st Hb).
  - intros i Hi IH. rewrite (while_lines_step b st i Hi), IH.
    rewrite (while_lines_step (b ++ f) st i (indexOf_app_Some _ _ _ _ Hi)).
    apply indexOf_lt in Hi.
    rewrite take_app_le, drop_app_le by lia. done.
Qed.

(** Feeding fragments one at a time is feeding their concatenation. *)
Lemma while_lines_fragments fs b st :
  fold_left (fun p f => while_lines body (p.1 ++ f) p.2) fs (while_lines body b st)
  = while_lines body (b ++ concat fs) st.
Proof.
  revert b st. induction fs as [|f fs IH]; intros b st; simpl.
  - by rewrite app_nil_r.
  - rewrite while_lines_app, IH. by rewrite <- app_assoc.
Qed.

(** A text of complete lines followed by an unterminated rest: the loop runs
    the body on every line and keeps the rest. *)
Lemma while_lines_unlines ls rest st :
  Forall (fun l => indexOf LF l = None) ls ->
  indexOf LF rest = None ->
  while_lines body (unlines ls ++ rest) st = (rest, run_lines body ls st).
Proof.
  intros Hls Hrest. revert st.
  induction Hls as [|l ls Hl Hls IH]; intros st.
  - by apply while_lines_done.
  - rewrite unlines_cons, <- app_assoc, <- app_comm_cons.
    rewrite (while_lines_step _ st (length l) (indexOf_here LF l _ Hl)).
    rewrite take_app_length, drop_past. apply IH.
Qed.

End LineLoopFacts.

(** ** The SDK version *)

Lemma parse_nil : JSON.parse [] = None.
Proof. reflexivity. Qed.

Lemma parse_Some_nonempty s v : JSON.parse s = Some v -> nonempty s = true.
Proof. destruct s; [discriminate|done]. Qed.

Lemma direct_on_lead_line_leads l a :
  Direct.leads (Direct.on_lead_line (trim l) a)
  = Direct.leads a ++ option_list (parse_line l).
Proof.
  unfold Direct.on_lead_line, parse_line.
  destruct (JSON.parse (trim l)) as [v|] eqn:Hp.
  - by rewrite (parse_Some_nonempty _ _ Hp).
  - destruct (nonempty (trim l)); simpl; by rewrite app_nil_r.
Qed.

Lemma direct_on_lead_line_sources l a :
  Direct.sources (Direct.on_lead_line l a) = Direct.sources a.
Proof.
  unfold Direct.on_lead_line.
  destruct (nonempty l); [|done]. by destruct (JSON.parse l).
Qed.


Lemma direct_flush_leads rest a :
  Direct.leads (Direct.flush rest a) = Direct.leads a ++ option_list (parse_line rest).
Proof.
  unfold Direct.flush, parse_line.
  destruct (JSON.parse (trim rest)) as [v|] eqn:Hp.
  - by rewrite (parse_Some_nonempty _ _ Hp).
  - destruct (nonempty (trim rest)); simpl; by rewrite app_nil_r.
Qed.

(** Text chunks, one after the other, leave the decoder where the loop over
    their concatenation leaves it. *)
Lemma direct_for_await_text fs d :
  indexOf LF (Direct.jsonBuffer d) = None ->
  Direct.for_await (map (fun f => Direct.Next (Direct.text_chunk f)) fs) d
  = (let r := while_lines Direct.on_lead_line
                (Direct.jsonBuffer d ++ concat fs) (Direct.app d) in
     {| Direct.jsonBuffer := r.1;
        Direct.processedSourceUris := Direct.processedSourceUris d;
        Direct.app := r.2 |}, None).
Proof.
  revert d. induction fs as [|f fs IH]; intros d Hd; simpl.
  - rewrite app_nil_r, while_lines_done by done. by destruct d.
  - unfold Direct.on_chunk, Direct.on_grounding, Direct.on_text. simpl.
    destruct (nonempty f) eqn:Hf.
    + destruct (while_lines Direct.on_lead_line (Direct.jsonBuffer d ++ f) (Direct.app d))
        as [b a'] eqn:Hw.
      rewrite IH; simpl.
      * pose proof (while_lines_app Direct.on_lead_line (concat fs)
                      (Direct.jsonBuffer d ++ f) (Direct.app d)) as Happ.
        rewrite Hw in Happ. simpl in Happ. by rewrite Happ, <- app_assoc.
      * pose proof (while_lines_drained Direct.on_lead_line
                      (Direct.jsonBuffer d ++ f) (Direct.app d)) as Hdr.
        by rewrite Hw in Hdr.
    + destruct f; [|discriminate]. by rewrite IH.
Qed.

Lemma direct_decode_text fs a :
  Direct.decode (map (fun f => Direct.Next (Direct.text_chunk f)) fs) a
  = (let r := while_lines Direct.on_lead_line (concat fs) a in
     Direct.flush r.1 r.2).
Proof. unfold Direct.decode. by rewrite direct_for_await_text. Qed.


(** ** The parser never runs out of fuel *)

Lemma skip_ws_length s : (length (JSON.skip_ws s) <= length s)%nat.
Proof.
  induction s as [|c s IH]; simpl; [lia|].
  destruct (JSON.is_ws c); simpl; lia.
Qed.

Lemma skip_ws_cons s c r : JSON.skip_ws s = c :: r -> (length r < length s)%nat.
Proof.
  intros H. pose proof (skip_ws_length s) as Hl. rewrite H in Hl. simpl in Hl. lia.
Qed.

Lemma lex_string_shorter s : forall acc x r,
  JSON.lex_string acc s = Some (x, r) -> (length r < length s)%nat.
Proof.
  remember (length s) as n eqn:Hn. revert s Hn.
  induction n as [n IH] using lt_wf_ind. intros s -> acc x r.
  assert (forall s' acc, (length s' < length s)%nat ->
            JSON.lex_string acc s' = Some (x, r) -> (length r < length s)%nat) as IH'.
  { intros s' acc' Hlen H. apply (IH _ Hlen s' eq_refl) in H. lia. }
  clear IH.
  destruct s as [|c s]; simpl; [discriminate|].
  destruct (c =? 34); [intros [= _ <-]; lia|].
  destruct (c <? 32); [discriminate|].
  destruct (c =? 92); [|apply IH'; simpl; lia].
  destruct s as [|e s]; [discriminate|].
  repeat match goal with
         | |- (if ?b then _ else _) = _ -> _ =>
             destruct b; [apply IH'; simpl; lia|]
         end.
  destruct (e =? 117); [|discriminate].
  destruct s as [|h1 [|h2 [|h3 [|h4 s]]]]; try discriminate.
  destruct (JSON.hex_digit h1), (JSON.hex_digit h2), (JSON.hex_digit h3),
    (JSON.hex_digit h4); try discriminate.
  apply IH'. simpl. lia.
Qed.

Lemma span_digits_length s ds r :
  JSON.span_digits s = (ds, r) -> (length r <= length s)%nat.
Proof.
  revert ds r. induction s as [|c s IH]; intros ds r; simpl.
  - intros [= _ <-]. simpl. lia.
  - destruct (JSON.is_digit c).
    + destruct (JSON.span_digits s) as [ds' r'] eqn:Hs. intros [= _ <-].
      specialize (IH _ _ eq_refl). lia.
    + intros [= _ <-]. simpl. lia.
Qed.

Lemma lex_exponent_length lexeme s x r :
  JSON.lex_exponent lexeme s = Some (x, r) -> (length r <= length s)%nat.
Proof.
  unfold JSON.lex_exponent. destruct s as [|e s]; [intros [= _ <-]; simpl; lia|].
  destruct ((e =? 101) || (e =? 69)); [|intros [= _ <-]; simpl; lia].
  destruct s as [|g s'].
  - simpl. discriminate.
  - destruct ((g =? 43) || (g =? 45)).
    + destruct (JSON.span_digits s') as [ds r2] eqn:Hs.
      apply span_digits_length in Hs.
      destruct ds; [discriminate|]. intros [= _ <-]. simpl. lia.
    + destruct (JSON.span_digits (g :: s')) as [ds r2] eqn:Hs.
      apply span_digits_length in Hs.
      destruct ds; [discriminate|]. intros [= _ <-]. simpl in *. lia.
Qed.

Lemma lex_fraction_length lexeme s x r :
  JSON.lex_fraction lexeme s = Some (x, r) -> (length r <= length s)%nat.
Proof.
  unfold JSON.lex_fraction. destruct s as [|p s]; [intros [= _ <-]; simpl; lia|].
  destruct (p =? 46).
  - destruct (JSON.span_digits s) as [ds r1] eqn:Hs.
    apply span_digits_length in Hs.
    destruct ds; [discriminate|]. intros H%lex_exponent_length. simpl. lia.
  - by apply lex_exponent_length.
Qed.

Lemma lex_number_shorter s x r :
  JSON.lex_number s = Some (x, r) -> (length r < length s)%nat.
Proof.
  unfold JSON.lex_number.
  assert (forall sign s1, (length s1 <= length s)%nat ->
            match s1 with
            | d :: r0 =>
                if d =? 48 then JSON.lex_fraction (sign ++ [d]) r0
                else if JSON.is_digit d then
                  let '(ds, r1) := JSON.span_digits r0 in
                  JSON.lex_fraction (sign ++ d :: ds) r1
                else None
            | [] => None
            end = Some (x, r) -> (length r < length s)%nat) as Haux.
  { intros sign [|d r0] Hlen; [discriminate|]. simpl in Hlen.
    destruct (d =? 48).
    - intros H%lex_fraction_length. lia.
    - destruct (JSON.is_digit d); [|discriminate].
      destruct (JSON.span_digits r0) as [ds r1] eqn:Hs.
      apply span_digits_length in Hs.
      intros H%lex_fraction_length. lia. }
  destruct s as [|m s']; [discriminate|].
  destruct (m =? 45); [apply (Haux [m] s')|apply (Haux [] (m :: s'))]; simpl; lia.
Qed.

Lemma strip_prefix_length p s r :
  JSON.strip_prefix p s = Some r -> (length r <= length s)%nat.
Proof.
  revert s. induction p as [|a p IH]; intros s; simpl.
  - intros [= <-]. lia.
  - destruct s as [|b s]; [discriminate|].
    destruct (a =? b); [|discriminate]. intros H%IH. simpl. lia.
Qed.

Ltac lengths :=
  repeat match goal with
         | H : JSON.skip_ws _ = _ :: _ |- _ => apply skip_ws_cons in H
         | H : JSON.lex_string _ _ = Some _ |- _ => apply lex_string_shorter in H
         | H : JSON.lex_number _ = Some _ |- _ => apply lex_number_shorter in H
         | H : JSON.strip_prefix _ _ = Some _ |- _ => apply strip_prefix_length in H
         end;
  simpl in *; try lia.

Ltac split_match H :=
  repeat match type of H with
         | context [match ?x with _ => _ end] => destruct x eqn:?; try discriminate H
         | context [if ?x then _ else _] => destruct x eqn:?; try discriminate H
         end.

Lemma parse_shorter fuel :
  (forall s v r, JSON.parse_value fuel s = JSON.Parsed v r -> (length r < length s)%nat)
  /\ (forall acc s v r,
        JSON.parse_elements fuel acc s = JSON.Parsed v r -> (length r < length s)%nat)
  /\ (forall acc s v r,
        JSON.parse_members fuel acc s = JSON.Parsed v r -> (length r < length s)%nat).
Proof.
  induction fuel as [|fuel (IHv & IHe & IHm)]; [by repeat split|].
  repeat split.
  - intros s v r H. cbn [JSON.parse_value] in H.
    destruct (JSON.skip_ws s) as [|c r0] eqn:Hs; [discriminate|].
    split_match H; try (injection H as <- <-); try apply IHe in H; try apply IHm in H;
      lengths.
  - intros acc s v r H. cbn [JSON.parse_elements] in H.
    destruct (JSON.parse_value fuel s) as [v0 r0| |] eqn:Hv; try discriminate.
    apply IHv in Hv.
    split_match H; try (injection H as <- <-); try apply IHe in H; lengths.
  - intros acc s v r H. cbn [JSON.parse_members] in H.
    destruct (JSON.skip_ws s) as [|q r0] eqn:Hs; [discriminate|].
    destruct (q =? 34); [|discriminate].
    destruct (JSON.lex_string [] r0) as [[key r1]|] eqn:Hk; [|discriminate].
    destruct (JSON.skip_ws r1) as [|c r2] eqn:Hs1; [discriminate|].
    destruct (c =? 58); [|discriminate].
    destruct (JSON.parse_value fuel r2) as [v0 r3| |] eqn:Hv; try discriminate.
    apply IHv in Hv.
    split_match H; try (injection H as <- <-); try apply IHm in H; lengths.
Qed.

Lemma parse_fuel fuel :
  (forall s, (2 * length s + 1 <= fuel)%nat -> JSON.parse_value fuel s <> JSON.OutOfFuel)
  /\ (forall acc s, (2 * length s + 2 <= fuel)%nat ->
        JSON.parse_elements fuel acc s <> JSON.OutOfFuel)
  /\ (forall acc s, (2 * length s + 1 <= fuel)%nat ->
        JSON.parse_members fuel acc s <> JSON.OutOfFuel).
Proof.
  induction fuel as [|fuel (IHv & IHe & IHm)]; [repeat split; intros; lia|].
  repeat split.
  - intros s Hf H. cbn [JSON.parse_value] in H.
    destruct (JSON.skip_ws s) as [|c r0] eqn:Hs; [discriminate|].
    apply skip_ws_cons in Hs.
    split_match H;
      first [ by (apply IHe in H; [done|lia]) | by (apply IHm in H; [done|lia]) ].
  - intros acc s Hf H. cbn [JSON.parse_elements] in H.
    destruct (JSON.parse_value fuel s) as [v0 r0| |] eqn:Hv; try discriminate.
    + apply (proj1 (parse_shorter fuel)) in Hv.
      split_match H. lengths. apply IHe in H; [done|lia].
    + apply IHv in Hv; [done|lia].
  - intros acc s Hf H. cbn [JSON.parse_members] in H.
    destruct (JSON.skip_ws s) as [|q r0] eqn:Hs; [discriminate|].
    destruct (q =? 34); [|discriminate].
    destruct (JSON.lex_string [] r0) as [[key r1]|] eqn:Hk; [|discriminate].
    destruct (JSON.skip_ws r1) as [|c r2] eqn:Hs1; [discriminate|].
    destruct (c =? 58); [|discriminate].
    lengths.
    destruct (JSON.parse_value fuel r2) as [v0 r3| |] eqn:Hv; try discriminate.
    + apply (proj1 (parse_shorter fuel)) in Hv.
      split_match H. lengths. apply IHm in H; [done|lia].
    + apply IHv in Hv; [done|lia].
Qed.

(** [JSON.parse] never fails for want of fuel. *)
Lemma parse_value_fuel text :
  JSON.parse_value (2 * length text + 1) text <> JSON.OutOfFuel.
Proof. by apply (proj1 (parse_fuel _)). Qed.

(** ** Reading back what [quote] writes *)

Lemma lex_string_escape_unit c acc rest :
  JSON.lex_string acc (JSON.escape_unit c ++ rest) = JSON.lex_string (c :: acc) rest.
Proof.
  destruct (N.lt_ge_cases c 32) as [Hc|Hc].
  - assert (exists n, (n < 32)%nat /\ c = N.of_nat n) as (n & Hn & ->)
      by (exists (N.to_nat c); lia).
    do 32 (destruct n as [|n]; [reflexivity|]). lia.
  - unfold JSON.escape_unit.
    destruct (N.eqb_spec c 34) as [->|H34]; [reflexivity|].
    destruct (N.eqb_spec c 92) as [->|H92]; [reflexivity|].
    destruct (N.eqb_spec c 8); [lia|]. destruct (N.eqb_spec c 9); [lia|].
    destruct (N.eqb_spec c 10); [lia|]. destruct (N.eqb_spec c 12); [lia|].
    destruct (N.eqb_spec c 13); [lia|].
    destruct (N.ltb_spec c 32); [lia|].
    simpl. destruct (N.eqb_spec c 34); [done|].
    destruct (N.ltb_spec c 32); [lia|].
    by destruct (N.eqb_spec c 92).
Qed.

Lemma lex_string_escape s acc rest :
  JSON.lex_string acc (JSON.escape s ++ 34 :: rest) = Some (rev acc ++ s, rest).
Proof.
  revert acc. induction s as [|c s IH]; intros acc.
  - simpl. by rewrite app_nil_r.
  - unfold JSON.escape in *. simpl. rewrite <- app_assoc.
    rewrite lex_string_escape_unit, IH. simpl. by rewrite <- app_assoc.
Qed.

Lemma indexOf_escape_unit c : indexOf LF (JSON.escape_unit c) = None.
Proof.
  destruct (N.lt_ge_cases c 32) as [Hc|Hc].
  - assert (exists n, (n < 32)%nat /\ c = N.of_nat n) as (n & Hn & ->)
      by (exists (N.to_nat c); lia).
    do 32 (destruct n as [|n]; [reflexivity|]). lia.
  - unfold JSON.escape_unit.
    destruct (N.eqb_spec c 34) as [->|H34]; [reflexivity|].
    destruct (N.eqb_spec c 92) as [->|H92]; [reflexivity|].
    destruct (N.eqb_spec c 8); [lia|]. destruct (N.eqb_spec c 9); [lia|].
    destruct (N.eqb_spec c 10); [lia|]. destruct (N.eqb_spec c 12); [lia|].
    destruct (N.eqb_spec c 13); [lia|].
    destruct (N.ltb_spec c 32); [lia|].
    simpl. by destruct (N.eqb_spec c LF).
Qed.

Lemma indexOf_escape s : indexOf LF (JSON.escape s) = None.
Proof.
  induction s as [|c s IH]; [done|].
  unfold JSON.escape in *. simpl.
  apply indexOf_app_None; [apply indexOf_escape_unit|done].
Qed.

Lemma parse_content_line p :
  JSON.parse (Envelope.content_line p) = Some (Envelope.content_message p).
Proof.
  unfold JSON.parse.
  assert (exists f, (2 * length (Envelope.content_line p) + 1)%nat = S (S (S (S f))))
    as [f ->].
  { exists (2 * length (Envelope.content_line p) + 1 - 4)%nat.
    unfold Envelope.content_line. rewrite length_app.
    change (length (lit "{'type':'content','payload':")) with 28%nat. lia. }
  unfold Envelope.content_line, JSON.quote.
  let x := eval vm_compute in (lit "{'type':'content','payload':") in
  change (lit "{'type':'content','payload':") with x.
  change (lit "}") with [125].
  simpl. rewrite <- app_assoc. simpl.
  rewrite lex_string_escape. reflexivity.
Qed.

Lemma trim_content_line p : trim (Envelope.content_line p) = Envelope.content_line p.
Proof.
  unfold Envelope.content_line. rewrite app_assoc.
  change ((lit "{'type':'content','payload':" ++ JSON.quote p) ++ lit "}")
    with (123 :: (tail (lit "{'type':'content','payload':") ++ JSON.quote p) ++ [125]).
  by apply trim_keep.
Qed.

Lemma indexOf_content_line p : indexOf LF (Envelope.content_line p) = None.
Proof.
  unfold Envelope.content_line, JSON.quote.
  apply indexOf_app_None; [reflexivity|].
  change (34 :: JSON.escape p ++ [34]) with ([34] ++ JSON.escape p ++ [34]).
  rewrite <- !app_assoc.
  repeat apply indexOf_app_None; try reflexivity. apply indexOf_escape.
Qed.

(** ** The envelope version *)

Lemma envelope_on_lead_line_leads l a :
  Envelope.leads (Envelope.on_lead_line (trim l) a)
  = Envelope.leads a ++ option_list (parse_line l).
Proof.
  unfold Envelope.on_lead_line, parse_line.
  destruct (JSON.parse (trim l)) as [v|] eqn:Hp.
  - by rewrite (parse_Some_nonempty _ _ Hp).
  - destruct (nonempty (trim l)); simpl; by rewrite app_nil_r.
Qed.


Lemma envelope_flush_leads rest a :
  Envelope.leads (Envelope.flush rest a)
  = Envelope.leads a ++ option_list (parse_line rest).
Proof.
  unfold Envelope.flush, parse_line.
  destruct (JSON.parse (trim rest)) as [v|] eqn:Hp.
  - by rewrite (parse_Some_nonempty _ _ Hp).
  - destruct (nonempty (trim rest)); simpl; by rewrite app_nil_r.
Qed.

Section EnvelopeFacts.

Variable Number_toString : jsstring -> jsstring.

(** A content envelope appends its payload to [jsonBuffer] and runs the
    inner loop; an empty payload does nothing, which is the same thing when
    the buffer holds no newline. *)
Lemma envelope_on_content line p jb a :
  indexOf LF jb = None ->
  Envelope.on_message Number_toString line (Envelope.content_message p) (jb, a)
  = while_lines Envelope.on_lead_line (jb ++ p) a.
Proof.
  intros Hjb. unfold Envelope.on_message.
  change (JSON.get (lit "type") (Envelope.content_message p))
    with (Some (Some (JSON.JString (lit "content")))).
  change (JSON.get (lit "payload") (Envelope.content_message p))
    with (Some (Some (JSON.JString p))).
  change (JSON.is_string (lit "content") (Some (JSON.JString (lit "content"))))
    with true.
  destruct p as [|c p]; simpl.
  - by rewrite app_nil_r, while_lines_done.
  - done.
Qed.

Lemma envelope_on_content_line p jb a :
  indexOf LF jb = None ->
  Envelope.on_stream_line Number_toString (trim (Envelope.content_line p)) (jb, a)
  = while_lines Envelope.on_lead_line (jb ++ p) a.
Proof.
  intros Hjb. unfold Envelope.on_stream_line.
  rewrite trim_content_line, parse_content_line.
  rewrite (parse_Some_nonempty _ _ (parse_content_line p)).
  by apply envelope_on_content.
Qed.

Lemma envelope_run_content_lines ps jb a :
  indexOf LF jb = None ->
  run_lines (Envelope.on_stream_line Number_toString)
    (map Envelope.content_line ps) (jb, a)
  = while_lines Envelope.on_lead_line (jb ++ concat ps) a.
Proof.
  revert jb a. induction ps as [|p ps IH]; intros jb a Hjb.
  - simpl. by rewrite app_nil_r, while_lines_done.
  - unfold run_lines in *. simpl.
    rewrite envelope_on_content_line by done.
    pose proof (while_lines_drained Envelope.on_lead_line (jb ++ p) a) as Hdr.
    pose proof (while_lines_app Envelope.on_lead_line (concat ps) (jb ++ p) a) as Happ.
    destruct (while_lines Envelope.on_lead_line (jb ++ p) a) as [jb' a'].
    rewrite IH by done. simpl in Happ. by rewrite Happ, <- app_assoc.
Qed.

(** Fragments of the body, one read after the other, leave the decoder where
    the loop over their concatenation leaves it. *)
Lemma envelope_read_loop_values fs d :
  indexOf LF (Envelope.streamBuffer d) = None ->
  Envelope.read_loop Number_toString (map Envelope.Value fs) d
  = (let r := while_lines (Envelope.on_stream_line Number_toString)
                (Envelope.streamBuffer d ++ concat fs)
                (Envelope.jsonBuffer d, Envelope.app d) in
     {| Envelope.streamBuffer := r.1;
        Envelope.jsonBuffer := r.2.1;
        Envelope.app := r.2.2 |}, None).
Proof.
  revert d. induction fs as [|f fs IH]; intros d Hd; simpl.
  - rewrite app_nil_r, while_lines_done by done. by destruct d.
  - unfold Envelope.on_read.
    pose proof (while_lines_drained (Envelope.on_stream_line Number_toString)
                  (Envelope.streamBuffer d ++ f)
                  (Envelope.jsonBuffer d, Envelope.app d)) as Hdr.
    pose proof (while_lines_app (Envelope.on_stream_line Number_toString) (concat fs)
                  (Envelope.streamBuffer d ++ f)
                  (Envelope.jsonBuffer d, Envelope.app d)) as Happ.
    destruct (while_lines (Envelope.on_stream_line Number_toString)
                (Envelope.streamBuffer d ++ f)
                (Envelope.jsonBuffer d, Envelope.app d)) as [b [jb a']].
    rewrite IH by done. simpl in *. by rewrite Happ, <- app_assoc.
Qed.

Lemma envelope_decode_values fs a :
  Envelope.decode Number_toString (map Envelope.Value fs) a
  = (let r := while_lines (Envelope.on_stream_line Number_toString) (concat fs) ([], a) in
     Envelope.flush r.2.1 r.2.2).
Proof. unfold Envelope.decode. by rewrite envelope_read_loop_values. Qed.

(** A body made of content envelopes, one per line, followed by any text
    without a newline: the payloads go through the inner loop as one text,
    and the text after the last newline is dropped. *)
Lemma envelope_decode_content fs ps tail a :
  concat fs = unlines (map Envelope.content_line ps) ++ tail ->
  indexOf LF tail = None ->
  Envelope.decode Number_toString (map Envelope.Value fs) a
  = (let r := while_lines Envelope.on_lead_line (concat ps) a in
     Envelope.flush r.1 r.2).
Proof.
  intros Hfs Htail. rewrite envelope_decode_values, Hfs. simpl.
  rewrite while_lines_unlines; [|by apply Forall_map, Forall_forall;
    intros; apply indexOf_content_line|done].
  simpl. by rewrite envelope_run_content_lines.
Qed.


End EnvelopeFacts.

(** * The properties of the specification *)

Lemma direct_runSearch_text_chunks apiKey fs a :
  Direct.runSearch apiKey
    (Direct.Stream (map (fun f => Direct.Next (Direct.text_chunk f)) fs)) a
  = Direct.runSearch apiKey
      (Direct.Stream [Direct.Next (Direct.text_chunk (concat fs))]) a.
Proof.
  unfold Direct.runSearch. destruct (nonempty apiKey); [|done]. f_equal.
  rewrite direct_decode_text.
  rewrite (direct_decode_text [concat fs]). simpl. by rewrite app_nil_r.
Qed.

Lemma envelope_runSearch_ok toStr reads a :
  Envelope.runSearch toStr (Envelope.ok_response reads) a
  = Envelope.finally (Envelope.decode toStr reads (Envelope.reset a)).
Proof. reflexivity. Qed.

Lemma envelope_decode_one toStr text a :
  Envelope.decode toStr [Envelope.Value text] a
  = Envelope.decode toStr (map Envelope.Value [text]) a.
Proof. reflexivity. Qed.

Lemma envelope_runSearch_fragments toStr fs a :
  Envelope.runSearch toStr (Envelope.ok_response (map Envelope.Value fs)) a
  = Envelope.runSearch toStr (Envelope.ok_response [Envelope.Value (concat fs)]) a.
Proof.
  rewrite !envelope_runSearch_ok, envelope_decode_one, !envelope_decode_values.
  simpl. by rewrite app_nil_r.
Qed.

Lemma envelope_runSearch_payloads toStr ps a :
  Envelope.runSearch toStr
    (Envelope.ok_response [Envelope.Value (unlines (map Envelope.content_line ps))]) a
  = Envelope.runSearch toStr
      (Envelope.ok_response
         [Envelope.Value (unlines [Envelope.content_line (concat ps)])]) a.
Proof.
  rewrite !envelope_runSearch_ok, !envelope_decode_one.
  rewrite (envelope_decode_content toStr [_] ps []); [|by simpl; rewrite !app_nil_r|done].
  rewrite (envelope_decode_content toStr [_] [concat ps] []);
    [|by simpl; rewrite !app_nil_r|done].
  simpl. by rewrite app_nil_r.
Qed.

(** C1. Chunking invariance.  However a payload is split into fragments, the
    leads at the end of the search are those of the payload fed as one
    fragment: for the text chunks of the SDK version, for the reads of the
    response body in the envelope version, and for the payload fragments that
    the content envelopes carry. *)
Theorem chunking_invariance :
  (forall apiKey fs a,
     Direct.leads
       (Direct.runSearch apiKey
          (Direct.Stream (map (fun f => Direct.Next (Direct.text_chunk f)) fs)) a)
     = Direct.leads
         (Direct.runSearch apiKey
            (Direct.Stream [Direct.Next (Direct.text_chunk (concat fs))]) a))
  /\ (forall toStr fs a,
        Envelope.leads
          (Envelope.runSearch toStr (Envelope.ok_response (map Envelope.Value fs)) a)
        = Envelope.leads
            (Envelope.runSearch toStr
               (Envelope.ok_response [Envelope.Value (concat fs)]) a))
  /\ (forall toStr ps a,
        Envelope.leads
          (Envelope.runSearch toStr
             (Envelope.ok_response
                [Envelope.Value (unlines (map Envelope.content_line ps))]) a)
        = Envelope.leads
            (Envelope.runSearch toStr
               (Envelope.ok_response
                  [Envelope.Value (unlines [Envelope.content_line (concat ps)])]) a)).
Proof.
  split; [|split].
  - intros. by rewrite direct_runSearch_text_chunks.
  - intros. by rewrite envelope_runSearch_fragments.
  - intros. by rewrite envelope_runSearch_payloads.
Qed.

(** C2. A record that straddles two fragments is parsed once, when its
    newline arrives: after the first fragment of the example no lead has been
    appended, and at the end the leads are the records A and B, in that
    order.  The same holds when the two fragments arrive as the payloads of
    two content envelopes. *)
Theorem straddling_record_example :
  forall c k a toStr a',
    Direct.leads
      (Direct.app
         (Direct.on_chunk (Direct.text_chunk fragment_1)
            (Direct.start (Direct.reset a)))) = []
    /\ Direct.leads
         (Direct.runSearch (c :: k)
            (Direct.Stream [Direct.Next (Direct.text_chunk fragment_1);
                            Direct.Next (Direct.text_chunk fragment_2)]) a)
       = [record_A; record_B]
    /\ Envelope.leads
         (Envelope.runSearch toStr
            (Envelope.ok_response
               [Envelope.Value (Envelope.content_line fragment_1 ++ [LF]);
                Envelope.Value (Envelope.content_line fragment_2 ++ [LF])]) a')
       = [record_A; record_B].
Proof. intros c k a toStr a'. repeat split; vm_compute; reflexivity. Qed.

(** ** Sources *)

Lemma while_lines_preserves {St X} (body : jsstring -> St -> St) (f : St -> X) :
  (forall l st, f (body l st) = f st) ->
  forall b st, f (while_lines body b st).2 = f st.
Proof.
  intros Hbody. apply (while_lines_ind body (fun b st => f (while_lines body b st).2 = f st)).
  - intros b st Hb. by rewrite while_lines_done.
  - intros b st i Hi IH. by rewrite (while_lines_step body b st i Hi), IH.
Qed.

Lemma elem_of_add_uris cs seen u :
  u ∈ Direct.add_uris cs seen <->
  u ∈ seen \/ exists c w, c ∈ cs /\ Direct.web c = Some w /\ Direct.uri w = u.
Proof.
  unfold Direct.add_uris. revert seen.
  induction cs as [|c cs IH]; intros seen; simpl.
  - split; [by left|]. intros [H|(c & w & Hc & _)]; [done|]. by apply elem_of_nil in Hc.
  - rewrite IH. split.
    + intros [H|(c' & w & Hc' & Hw & Hu)].
      * destruct (Direct.web c) as [w|] eqn:Hw; [|by left].
        apply elem_of_union in H as [H|H]; [|by left].
        apply elem_of_singleton in H. right. exists c, w. split; [left|done].
      * right. exists c', w. split; [by right|done].
    + intros [H|(c' & w & Hc' & Hw & Hu)].
      * left. destruct (Direct.web c); [|done]. apply elem_of_union. by right.
      * apply elem_of_cons in Hc' as [->|Hc'].
        -- left. rewrite Hw. apply elem_of_union. left. by apply elem_of_singleton.
        -- right. by exists c', w.
Qed.

Lemma direct_on_text_sources c d :
  Direct.sources (Direct.app (Direct.on_text c d)) = Direct.sources (Direct.app d)
  /\ Direct.processedSourceUris (Direct.on_text c d) = Direct.processedSourceUris d.
Proof.
  unfold Direct.on_text. destruct (Direct.text c) as [t|]; [|done].
  destruct (nonempty t); [|done].
  pose proof (while_lines_preserves Direct.on_lead_line Direct.sources
                direct_on_lead_line_sources (Direct.jsonBuffer d ++ t) (Direct.app d)) as H.
  by destruct (while_lines Direct.on_lead_line (Direct.jsonBuffer d ++ t) (Direct.app d)).
Qed.

(** What a chunk adds to the sources: grounding chunks with a uri that was
    not recorded before, all of which are recorded afterwards; nothing that
    was recorded is forgotten. *)
Lemma direct_on_chunk_new c d :
  exists new,
    Direct.sources (Direct.app (Direct.on_chunk c d))
    = Direct.sources (Direct.app d) ++ new
    /\ (forall g, g ∈ new ->
          exists w, Direct.web g = Some w
                    /\ (Direct.uri w ∉ Direct.processedSourceUris d)
                    /\ (Direct.uri w ∈ Direct.processedSourceUris (Direct.on_chunk c d)))
    /\ Direct.processedSourceUris d ⊆ Direct.processedSourceUris (Direct.on_chunk c d).
Proof.
  unfold Direct.on_chunk.
  destruct (direct_on_text_sources c (Direct.on_grounding c d)) as [-> ->].
  unfold Direct.on_grounding.
  destruct (Direct.groundingChunks c) as [newChunks|];
    [|exists []; rewrite app_nil_r; split; [done|split; [by intros g Hg; apply elem_of_nil in Hg|done]]].
  set (unique := List.filter _ newChunks).
  destruct (0 <? length unique)%nat eqn:Hlen.
  - exists unique. simpl. split; [done|]. split.
    + intros g Hg.
      assert (Direct.is_unique_new (Direct.processedSourceUris d) g = true) as Hnew.
      { apply list_elem_of_In in Hg. by apply filter_In in Hg as [_ Hg]. }
      unfold Direct.is_unique_new in Hnew.
      destruct (Direct.web g) as [w|] eqn:Hw; [|discriminate].
      apply andb_true_iff in Hnew as [_ Hnew]. apply bool_decide_eq_true in Hnew.
      exists w. split; [done|]. split; [done|].
      apply elem_of_add_uris. right. by exists g, w.
    + intros u Hu. apply elem_of_add_uris. by left.
  - exists []. rewrite app_nil_r. split; [done|].
    split; [by intros g Hg; apply elem_of_nil in Hg|done].
Qed.

Lemma direct_recorded_on_chunk c d : Direct.recorded d -> Direct.recorded (Direct.on_chunk c d).
Proof.
  intros Hd g Hg.
  destruct (direct_on_chunk_new c d) as (new & Hnew & Hfresh & Hsub).
  rewrite Hnew in Hg. apply elem_of_app in Hg as [Hg|Hg].
  - destruct (Hd g Hg) as (w & Hw & Hu). exists w. split; [done|]. by apply Hsub.
  - destruct (Hfresh g Hg) as (w & Hw & _ & Hu). by exists w.
Qed.

Lemma direct_recorded_for_await cs d :
  Direct.recorded d ->
  Direct.recorded (Direct.for_await (map Direct.Next cs) d).1.
Proof.
  revert d. induction cs as [|c cs IH]; intros d Hd; [done|].
  simpl. by apply IH, direct_recorded_on_chunk.
Qed.

Lemma direct_recorded_start a : Direct.recorded (Direct.start (Direct.reset a)).
Proof. intros g Hg. by apply elem_of_nil in Hg. Qed.

(** The specification's example of two equal [sources] envelopes, as the
    envelope version handles it: both entries are kept. *)
Lemma envelope_sources_not_deduplicated :
  let line :=
    lit "{'type':'sources','payload':[{'web':{'uri':'http://a','title':'A'}}]}" ++ [LF] in
  let source :=
    JSON.JObject
      [(lit "web",
        JSON.JObject [(lit "uri", JSON.JString (lit "http://a"));
                      (lit "title", JSON.JString (lit "A"))])] in
  let result :=
    Envelope.runSearch Envelope.lexeme_text
      (Envelope.ok_response [Envelope.Value line; Envelope.Value line])
      Envelope.initial in
  Envelope.sources result = [source; source]
  /\ length (Envelope.sources result) <> 1%nat.
Proof. vm_compute. split; [reflexivity|discriminate]. Qed.

(** The specification's example in the SDK version: the same grounding chunk
    in two chunks of the stream is kept once.  Within one chunk the filter
    runs before any uri is recorded, so a uri repeated there is kept twice. *)
Example direct_sources_examples :
  let g := {| Direct.web := Some {| Direct.uri := lit "http://a"; Direct.title := lit "A" |} |} in
  let run items := Direct.sources (Direct.runSearch (lit "key") (Direct.Stream items) Direct.initial) in
  run [Direct.Next (Direct.grounding_chunk [g]); Direct.Next (Direct.grounding_chunk [g])] = [g]
  /\ run [Direct.Next (Direct.grounding_chunk [g; g])] = [g; g].
Proof. vm_compute. split; reflexivity. Qed.

(** C3, as amended.  The envelope version appends the entries of a [sources]
    envelope as they come, with no deduplication (its comment leaves that to
    the server).  The SDK version deduplicates across chunks: whatever a
    chunk adds to the sources has a uri that differs from the uri of every
    source added by the chunks before it. *)
Theorem sources_deduplication :
  (forall toStr line entries jb a,
     let st := Envelope.on_message toStr line
                 (Envelope.sources_message (JSON.JArray entries)) (jb, a) in
     st.1 = jb
     /\ Envelope.sources st.2 = Envelope.sources a ++ entries
     /\ Envelope.leads st.2 = Envelope.leads a)
  /\ (forall cs c a,
        let d := (Direct.for_await (map Direct.Next cs)
                    (Direct.start (Direct.reset a))).1 in
        exists new,
          Direct.sources (Direct.app (Direct.on_chunk c d))
          = Direct.sources (Direct.app d) ++ new
          /\ forall g g', g ∈ new -> g' ∈ Direct.sources (Direct.app d) ->
               exists w w', Direct.web g = Some w /\ Direct.web g' = Some w'
                            /\ Direct.uri w <> Direct.uri w').
Proof.
  split.
  - intros toStr line entries jb a. by vm_compute.
  - intros cs c a d.
    pose proof (direct_recorded_for_await cs _ (direct_recorded_start a)) as Hrec.
    fold d in Hrec.
    destruct (direct_on_chunk_new c d) as (new & Hnew & Hfresh & _).
    exists new. split; [done|]. intros g g' Hg Hg'.
    destruct (Hfresh g Hg) as (w & Hw & Hout & _).
    destruct (Hrec g' Hg') as (w' & Hw' & Hin).
    exists w, w'. split; [done|]. split; [done|]. by intros Heq; rewrite Heq in Hout.
Qed.

(** ** The flush at completion *)

Lemma direct_runSearch_stream c k items a :
  Direct.runSearch (c :: k) (Direct.Stream items) a
  = Direct.finally (Direct.decode items (Direct.reset a)).
Proof. reflexivity. Qed.









(** ** Lines that do not parse, blank lines, and how many lines there are *)

Lemma Forall_no_newline_app (ls1 ls2 : list jsstring) l :
  Forall (fun l => indexOf LF l = None) (ls1 ++ l :: ls2) ->
  Forall (fun l => indexOf LF l = None) (ls1 ++ ls2).
Proof.
  rewrite !Forall_app, Forall_cons. tauto.
Qed.


(** Two runs of the loop from related states stay related, and leave the
    same text in the buffer. *)
Lemma while_lines_rel {St} (R : St -> St -> Prop) (body : jsstring -> St -> St) :
  (forall l st st', R st st' -> R (body l st) (body l st')) ->
  forall b st st', R st st' ->
    (while_lines body b st).1 = (while_lines body b st').1
    /\ R (while_lines body b st).2 (while_lines body b st').2.
Proof.
  intros Hbody b st.
  apply (while_lines_ind body
           (fun b st => forall st', R st st' ->
              (while_lines body b st).1 = (while_lines body b st').1
              /\ R (while_lines body b st).2 (while_lines body b st').2)).
  - intros b0 st0 Hb st' HR. by rewrite !while_lines_done.
  - intros b0 st0 i Hi IH st' HR.
    rewrite (while_lines_step body b0 st0 i Hi), (while_lines_step body b0 st' i Hi).
    by apply IH, Hbody.
Qed.











Lemma run_lines_skip {St} (body : jsstring -> St -> St) ls1 blank ls2 st :
  (forall st, body (trim blank) st = st) ->
  run_lines body (ls1 ++ blank :: ls2) st = run_lines body (ls1 ++ ls2) st.
Proof.
  intros Hblank. unfold run_lines. rewrite !fold_left_app. simpl. by rewrite Hblank.
Qed.

Lemma while_lines_skip {St} (body : jsstring -> St -> St) ls1 blank ls2 rest st :
  (forall st, body (trim blank) st = st) ->
  Forall (fun l => indexOf LF l = None) (ls1 ++ blank :: ls2) ->
  indexOf LF rest = None ->
  while_lines body (unlines (ls1 ++ blank :: ls2) ++ rest) st
  = while_lines body (unlines (ls1 ++ ls2) ++ rest) st.
Proof.
  intros Hblank Hls Hrest.
  rewrite !while_lines_unlines; [|by eapply Forall_no_newline_app|done..].
  by rewrite run_lines_skip.
Qed.

(** C6. A line that is empty after trimming does nothing: each of the
    handlers returns the state it was given (no lead, no source, no error, no
    console entry), and a stream with such a line ends in the same state as
    the stream without it. *)
Theorem blank_lines_are_skipped :
  forall c k toStr blank ls1 ls2 rest a a' st,
    trim blank = [] ->
    Forall (fun l => indexOf LF l = None) (ls1 ++ blank :: ls2) ->
    indexOf LF rest = None ->
    Direct.on_lead_line (trim blank) a = a
    /\ Direct.flush blank a = a
    /\ Envelope.on_lead_line (trim blank) a' = a'
    /\ Envelope.flush blank a' = a'
    /\ Envelope.on_stream_line toStr (trim blank) st = st
    /\ Direct.runSearch (c :: k)
         (Direct.Stream
            [Direct.Next (Direct.text_chunk (unlines (ls1 ++ blank :: ls2) ++ rest))]) a
       = Direct.runSearch (c :: k)
           (Direct.Stream
              [Direct.Next (Direct.text_chunk (unlines (ls1 ++ ls2) ++ rest))]) a
    /\ Envelope.runSearch toStr
         (Envelope.ok_response
            [Envelope.Value (unlines (ls1 ++ blank :: ls2) ++ rest)]) a'
       = Envelope.runSearch toStr
           (Envelope.ok_response [Envelope.Value (unlines (ls1 ++ ls2) ++ rest)]) a'.
Proof.
  intros c k toStr blank ls1 ls2 rest a a' st Hblank Hls Hrest.
  assert (forall a, Direct.on_lead_line (trim blank) a = a) as HD
    by (intros; unfold Direct.on_lead_line; by rewrite Hblank).
  assert (forall st, Envelope.on_stream_line toStr (trim blank) st = st) as HE
    by (intros; unfold Envelope.on_stream_line; by rewrite Hblank).
  repeat split.
  - apply HD.
  - unfold Direct.flush. by rewrite Hblank.
  - unfold Envelope.on_lead_line. by rewrite Hblank.
  - unfold Envelope.flush. by rewrite Hblank.
  - apply HE.
  - rewrite !direct_runSearch_stream. f_equal.
    change [Direct.Next (Direct.text_chunk ?t)]
      with (map (fun f => Direct.Next (Direct.text_chunk f)) [t]).
    rewrite !direct_decode_text. simpl. rewrite !app_nil_r.
    by rewrite while_lines_skip.
  - rewrite !envelope_runSearch_ok, !envelope_decode_one, !envelope_decode_values.
    simpl. rewrite !app_nil_r. by rewrite while_lines_skip.
Qed.

(** A run of [blank_lines_are_skipped]: a line of two spaces and a tab. *)
Lemma blank_lines_are_skipped_witness :
  let blank := [32; 32; 9] in
  let before := Direct.setLeads (fun _ => [JSON.JNull]) Direct.initial in
  Direct.on_lead_line (trim blank) before = before
  /\ Direct.runSearch (lit "key")
       (Direct.Stream
          [Direct.Next
             (Direct.text_chunk (unlines [lit "{'name':'A'}"; blank; lit "7"]))])
       Direct.initial
     = Direct.runSearch (lit "key")
         (Direct.Stream
            [Direct.Next (Direct.text_chunk (unlines [lit "{'name':'A'}"; lit "7"]))])
         Direct.initial.
Proof.
  intros blank before.
  destruct (blank_lines_are_skipped 107 (lit "ey") Envelope.lexeme_text blank
              [lit "{'name':'A'}"] [lit "7"] [] before Envelope.initial
              ([], Envelope.initial)) as (H1 & _ & _ & _ & _ & H6 & _).
  - reflexivity.
  - repeat constructor.
  - reflexivity.
  - split; [exact H1|].
    pose proof (blank_lines_are_skipped 107 (lit "ey") Envelope.lexeme_text blank
                  [lit "{'name':'A'}"] [lit "7"] [] Direct.initial Envelope.initial
                  ([], Envelope.initial) eq_refl
                  ltac:(repeat constructor) eq_refl) as (_ & _ & _ & _ & _ & H & _).
    rewrite !app_nil_r in H. exact H.
Defined.



(** ** Transport errors *)

Lemma direct_for_await_fails cs err rest d :
  Direct.for_await (map Direct.Next cs ++ Direct.Fails err :: rest) d
  = ((Direct.for_await (map Direct.Next cs) d).1, Some err).
Proof. revert d. induction cs as [|c cs IH]; intros d; [done|]. apply IH. Qed.

Lemma envelope_read_loop_fails toStr fs err rest d :
  Envelope.read_loop toStr (map Envelope.Value fs ++ Envelope.ReadFails err :: rest) d
  = ((Envelope.read_loop toStr (map Envelope.Value fs) d).1, Some err).
Proof. revert d. induction fs as [|f fs IH]; intros d; [done|]. apply IH. Qed.

Lemma includes_nonempty c needle hay :
  includes (c :: needle) hay = true -> nonempty hay = true.
Proof. by destruct hay. Qed.

(** C8. A transport error keeps what was decoded before it, and one message
    is shown for it.  When the stream fails after some chunks (reads), the
    leads and sources at the end of the search are those the decoder had
    appended from these chunks, the error thrown is written to the console
    once, and [error] holds one message: the message of the [Error] thrown
    (in the envelope version replaced by a fixed text when it mentions JSON),
    or a fixed text when what was thrown is no [Error].  A rejected request,
    a response that is not [ok] and a response without a body fail before
    anything is decoded: leads and sources are empty and [error] holds the
    message, which for a response that is not [ok] names the status and the
    text of the response.  The message is empty only when an [Error] with an
    empty message was thrown. *)
Theorem partial_results_survive :
  let shown_sdk := fun err =>
    match err with
    | ErrorObject message => message
    | OtherValue =>
        lit "An unexpected error occurred. Please check the console and your API key."
    end in
  let shown := fun err =>
    match err with
    | ErrorObject message =>
        if includes (lit "JSON") message
        then lit "Failed to process the response. The format might be invalid."
        else message
    | OtherValue => lit "An unexpected error occurred. Please try again."
    end in
  (forall c k cs err rest a,
     let d := (Direct.for_await (map Direct.Next cs) (Direct.start (Direct.reset a))).1 in
     let r := Direct.runSearch (c :: k)
                (Direct.Stream (map Direct.Next cs ++ Direct.Fails err :: rest)) a in
     Direct.leads r = Direct.leads (Direct.app d)
     /\ Direct.sources r = Direct.sources (Direct.app d)
     /\ Direct.error r = Some (shown_sdk err)
     /\ Direct.console r = Direct.console (Direct.app d) ++ [LogError err])
  /\ (forall c k err a,
        let r := Direct.runSearch (c :: k) (Direct.Rejected err) a in
        Direct.leads r = [] /\ Direct.sources r = []
        /\ Direct.error r = Some (shown_sdk err)
        /\ Direct.console r = Direct.console a ++ [LogError err])
  /\ (forall toStr fs err rest status text a,
        let d := (Envelope.read_loop toStr (map Envelope.Value fs)
                    (Envelope.start (Envelope.reset a))).1 in
        let r := Envelope.runSearch toStr
                   (Envelope.Responded
                      {| Envelope.ok := true; Envelope.status := status;
                         Envelope.text := text;
                         Envelope.body :=
                           Some (map Envelope.Value fs ++ Envelope.ReadFails err :: rest) |})
                   a in
        Envelope.leads r = Envelope.leads (Envelope.app d)
        /\ Envelope.sources r = Envelope.sources (Envelope.app d)
        /\ Envelope.error r = Some (shown err)
        /\ Envelope.console r = Envelope.console (Envelope.app d) ++ [LogError err])
  /\ (forall toStr err a,
        let r := Envelope.runSearch toStr (Envelope.FetchRejected err) a in
        Envelope.leads r = [] /\ Envelope.sources r = []
        /\ Envelope.error r = Some (shown err)
        /\ Envelope.console r = Envelope.console a ++ [LogError err])
  /\ (forall toStr status errorText body a,
        let r := Envelope.runSearch toStr
                   (Envelope.Responded
                      {| Envelope.ok := false; Envelope.status := status;
                         Envelope.text := inr errorText; Envelope.body := body |}) a in
        let message := lit "Failed to fetch from server: " ++ Envelope.decimal status
                         ++ lit " " ++ errorText in
        Envelope.leads r = [] /\ Envelope.sources r = []
        /\ Envelope.error r
           = Some (if includes (lit "JSON") message
                   then lit "Failed to process the response. The format might be invalid."
                   else message)
        /\ Envelope.console r = Envelope.console a ++ [LogError (ErrorObject message)])
  /\ (forall toStr status err body a,
        let r := Envelope.runSearch toStr
                   (Envelope.Responded
                      {| Envelope.ok := false; Envelope.status := status;
                         Envelope.text := inl err; Envelope.body := body |}) a in
        Envelope.leads r = [] /\ Envelope.sources r = []
        /\ Envelope.error r = Some (shown err)
        /\ Envelope.console r = Envelope.console a ++ [LogError err])
  /\ (forall toStr status text a,
        let r := Envelope.runSearch toStr
                   (Envelope.Responded
                      {| Envelope.ok := true; Envelope.status := status;
                         Envelope.text := text; Envelope.body := None |}) a in
        Envelope.leads r = [] /\ Envelope.sources r = []
        /\ Envelope.error r = Some (lit "Response body is missing.")
        /\ Envelope.console r
           = Envelope.console a ++ [LogError (ErrorObject (lit "Response body is missing."))])
  /\ (forall err,
        nonempty (shown_sdk err)
        = match err with ErrorObject message => nonempty message | OtherValue => true end)
  /\ (forall err,
        nonempty (shown err)
        = match err with ErrorObject message => nonempty message | OtherValue => true end).
Proof.
  intros shown_sdk shown. repeat apply conj.
  - intros c k cs err rest a d r. subst r.
    rewrite direct_runSearch_stream. unfold Direct.decode.
    rewrite direct_for_await_fails. by destruct err.
  - intros c k [message|] a; done.
  - intros toStr fs err rest status text a d r. subst r.
    unfold Envelope.runSearch, Envelope.decode. cbn [Envelope.ok Envelope.body].
    rewrite envelope_read_loop_fails. by destruct err.
  - intros toStr [message|] a; done.
  - done.
  - intros toStr status [message|] body a; done.
  - done.
  - by intros [message|].
  - intros [message|]; [|done]. cbn [shown].
    destruct (includes (lit "JSON") message) eqn:Hjson; [|done].
    symmetry. by apply (includes_nonempty _ _ _ Hjson).
Qed.

(** ** What counts as a lead, and which envelopes are ignored *)

(** C9. No schema is checked: whatever value [JSON.parse] gives for a
    trimmed line is appended to the leads as it is, by the loop body and by
    the flush of both versions. *)
Theorem no_schema_validation :
  forall line v a a',
    parse_line line = Some v ->
    Direct.leads (Direct.on_lead_line (trim line) a) = Direct.leads a ++ [v]
    /\ Direct.leads (Direct.flush line a) = Direct.leads a ++ [v]
    /\ Envelope.leads (Envelope.on_lead_line (trim line) a') = Envelope.leads a' ++ [v]
    /\ Envelope.leads (Envelope.flush line a') = Envelope.leads a' ++ [v].
Proof.
  intros line v a a' Hv.
  rewrite direct_on_lead_line_leads, direct_flush_leads.
  rewrite envelope_on_lead_line_leads, envelope_flush_leads.
  by rewrite Hv.
Qed.

(** A run of [no_schema_validation]: an object with none of the required
    keys and a rating of 17. *)
Lemma no_schema_validation_witness :
  let line := lit " {'rating':17} " in
  let v := JSON.JObject [(lit "rating", JSON.JNumber (lit "17"))] in
  Direct.leads (Direct.on_lead_line (trim line) Direct.initial) = [v]
  /\ Direct.leads (Direct.flush line Direct.initial) = [v]
  /\ Envelope.leads (Envelope.on_lead_line (trim line) Envelope.initial) = [v]
  /\ Envelope.leads (Envelope.flush line Envelope.initial) = [v].
Proof.
  intros line v.
  apply (no_schema_validation line v Direct.initial Envelope.initial).
  reflexivity.
Defined.

(** A number, a string, an array and two objects that are no business
    record all become leads. *)
Example unvalidated_values_become_leads :
  Direct.leads
    (Direct.runSearch (lit "key")
       (Direct.Stream
          [Direct.Next
             (Direct.text_chunk
                (unlines [lit "42"; lit "'text'"; lit "[1,2]"; lit "{}";
                          lit "{'name':null,'rating':-3}"]))])
       Direct.initial)
  = [JSON.JNumber (lit "42"); JSON.JString (lit "text");
     JSON.JArray [JSON.JNumber (lit "1"); JSON.JNumber (lit "2")];
     JSON.JObject [];
     JSON.JObject [(lit "name", JSON.JNull); (lit "rating", JSON.JNumber (lit "-3"))]].
Proof. reflexivity. Qed.

(** C10. In the envelope version, a line that parses to a value other than
    [null] whose [type] is neither ["content"] nor ["sources"], or whose
    [payload] is missing or falsy, is ignored: the handler returns the state
    it was given, so leads, sources, [jsonBuffer] and console are as
    before. *)
Theorem ignored_envelopes :
  forall toStr line message type payload st,
    JSON.parse line = Some message ->
    JSON.get (lit "type") message = Some type ->
    JSON.get (lit "payload") message = Some payload ->
    (JSON.is_string (lit "content") type = false
     /\ JSON.is_string (lit "sources") type = false)
    \/ JSON.truthy payload = false ->
    Envelope.on_stream_line toStr line st = st.
Proof.
  intros toStr line message type payload [jb a] Hparse Htype Hpayload Hcond.
  unfold Envelope.on_stream_line.
  rewrite (parse_Some_nonempty _ _ Hparse), Hparse.
  unfold Envelope.on_message. rewrite Htype, Hpayload.
  destruct Hcond as [ [-> ->] | -> ]; [done|].
  by rewrite !andb_false_r.
Qed.

(** A run of [ignored_envelopes]: a content envelope with an empty payload. *)
Lemma ignored_envelopes_witness :
  let st := (lit "{'name':", Envelope.initial) in
  Envelope.on_stream_line Envelope.lexeme_text (lit "{'type':'content','payload':''}") st
  = st.
Proof.
  intros st.
  apply (ignored_envelopes Envelope.lexeme_text
           (lit "{'type':'content','payload':''}")
           (Envelope.content_message [])
           (Some (JSON.JString (lit "content"))) (Some (JSON.JString [])) st).
  - reflexivity.
  - reflexivity.
  - reflexivity.
  - right. reflexivity.
Defined.

(** Envelopes of other shapes that are ignored in the same way, and [null],
    for which reading [message.type] throws: the [catch] of the line logs a
    warning and leaves the rest of the state alone. *)
Example other_ignored_envelopes :
  let st := (lit "{'name':", Envelope.initial) in
  let on_line l := Envelope.on_stream_line Envelope.lexeme_text (lit l) st in
  on_line "{'type':'ping','payload':'x'}"%string = st
  /\ on_line "{'type':'sources'}"%string = st
  /\ on_line "{'type':'sources','payload':0.0}"%string = st
  /\ on_line "{'type':'content','payload':null}"%string = st
  /\ on_line "{'payload':'x'}"%string = st
  /\ on_line "[1,2]"%string = st
  /\ on_line "7"%string = st
  /\ on_line "null"%string
     = (st.1, Envelope.log
                (Warn (lit "Could not parse stream message:") (lit "null")
                   CaughtTypeError) st.2).
Proof. vm_compute. repeat split; reflexivity. Qed.

(** * Further properties of the search and of the handlers around it *)

(** * The rest of [runSearch] *)

(** ** How a search ends *)

Lemma direct_on_lead_line_status l a :
  Direct.error (Direct.on_lead_line l a) = Direct.error a
  /\ Direct.isLoading (Direct.on_lead_line l a) = Direct.isLoading a.
Proof.
  unfold Direct.on_lead_line.
  destruct (nonempty l); [|done]. by destruct (JSON.parse l).
Qed.

Lemma direct_on_chunk_error c d :
  Direct.error (Direct.app (Direct.on_chunk c d)) = Direct.error (Direct.app d).
Proof.
  unfold Direct.on_chunk, Direct.on_text.
  assert (Direct.error (Direct.app (Direct.on_grounding c d)) = Direct.error (Direct.app d))
    as <-.
  { unfold Direct.on_grounding. destruct (Direct.groundingChunks c); [|done].
    by destruct (0 <? length _)%nat. }
  destruct (Direct.text c) as [t|]; [|done].
  destruct (nonempty t); [|done].
  pose proof (while_lines_preserves Direct.on_lead_line Direct.error
                (fun l a => proj1 (direct_on_lead_line_status l a))
                (Direct.jsonBuffer (Direct.on_grounding c d) ++ t)
                (Direct.app (Direct.on_grounding c d))) as H.
  by destruct (while_lines Direct.on_lead_line _ _).
Qed.

Lemma direct_for_await_error cs d :
  Direct.error (Direct.app (Direct.for_await (map Direct.Next cs) d).1)
  = Direct.error (Direct.app d)
  /\ (Direct.for_await (map Direct.Next cs) d).2 = None.
Proof.
  revert d. induction cs as [|c cs IH]; intros d; [done|].
  simpl. destruct (IH (Direct.on_chunk c d)) as [-> ->].
  by rewrite direct_on_chunk_error.
Qed.

Lemma direct_flush_error b a : Direct.error (Direct.flush b a) = Direct.error a.
Proof.
  unfold Direct.flush. destruct (nonempty (trim b)); [|done].
  by destruct (JSON.parse (trim b)).
Qed.

Lemma envelope_on_lead_line_error l a :
  Envelope.error (Envelope.on_lead_line l a) = Envelope.error a.
Proof.
  unfold Envelope.on_lead_line.
  destruct (nonempty l); [|done]. by destruct (JSON.parse l).
Qed.

Lemma envelope_on_stream_line_error toStr l st :
  Envelope.error (Envelope.on_stream_line toStr l st).2 = Envelope.error st.2.
Proof.
  destruct st as [jb a]. unfold Envelope.on_stream_line.
  destruct (nonempty l); [|done].
  destruct (JSON.parse l) as [message|]; [|done].
  unfold Envelope.on_message.
  destruct (JSON.get (lit "type") message) as [type|]; [|done].
  destruct (JSON.get (lit "payload") message) as [payload|]; [|done].
  destruct (JSON.is_string (lit "content") type && JSON.truthy payload).
  - destruct payload as [p|]; [|done].
    destruct (JSON.to_string toStr p) as [s|]; [|done].
    apply (while_lines_preserves Envelope.on_lead_line Envelope.error
             envelope_on_lead_line_error).
  - destruct (JSON.is_string (lit "sources") type && JSON.truthy payload); [|done].
    destruct payload as [newChunks|]; [|done].
    simpl. unfold Envelope.append_sources. by destruct (JSON.spread newChunks).
Qed.

Lemma envelope_read_loop_error toStr fs d :
  Envelope.error (Envelope.app (Envelope.read_loop toStr (map Envelope.Value fs) d).1)
  = Envelope.error (Envelope.app d)
  /\ (Envelope.read_loop toStr (map Envelope.Value fs) d).2 = None.
Proof.
  revert d. induction fs as [|f fs IH]; intros d; [done|].
  simpl. destruct (IH (Envelope.on_read toStr f d)) as [-> ->]. split; [|done].
  unfold Envelope.on_read.
  pose proof (while_lines_preserves (Envelope.on_stream_line toStr)
                (fun st => Envelope.error st.2)
                (envelope_on_stream_line_error toStr)
                (Envelope.streamBuffer d ++ f)
                (Envelope.jsonBuffer d, Envelope.app d)) as H.
  by destruct (while_lines (Envelope.on_stream_line toStr) _ _) as [b [jb a]].
Qed.

Lemma envelope_flush_error b a : Envelope.error (Envelope.flush b a) = Envelope.error a.
Proof.
  unfold Envelope.flush. destruct (nonempty (trim b)); [|done].
  by destruct (JSON.parse (trim b)).
Qed.

Lemma direct_search_no_error c k cs a :
  Direct.error (Direct.runSearch (c :: k) (Direct.Stream (map Direct.Next cs)) a) = None.
Proof.
  rewrite direct_runSearch_stream. unfold Direct.decode.
  destruct (direct_for_await_error cs (Direct.start (Direct.reset a))) as [He Hn].
  destruct (Direct.for_await _ _) as [d o]. simpl in *. subst o.
  change (Direct.error (Direct.flush (Direct.jsonBuffer d) (Direct.app d)) = None).
  by rewrite direct_flush_error, He.
Qed.

Lemma envelope_search_no_error toStr fs a :
  Envelope.error
    (Envelope.runSearch toStr (Envelope.ok_response (map Envelope.Value fs)) a) = None.
Proof.
  rewrite envelope_runSearch_ok. unfold Envelope.decode.
  destruct (envelope_read_loop_error toStr fs (Envelope.start (Envelope.reset a)))
    as [He Hn].
  destruct (Envelope.read_loop _ _ _) as [d o]. simpl in *. subst o.
  change (Envelope.error (Envelope.flush (Envelope.jsonBuffer d) (Envelope.app d)) = None).
  by rewrite envelope_flush_error, He.
Qed.

(** X1. Whatever a search receives, it ends with [isLoading] off; and when
    the transport does not fail, it ends with no error, whatever the chunks
    hold (lines that do not parse, envelopes of any shape) and whatever error
    was shown before. *)
Theorem search_ends_idle_and_clean :
  (forall apiKey response a,
     Direct.isLoading (Direct.runSearch apiKey response a) = false)
  /\ (forall toStr response a,
        Envelope.isLoading (Envelope.runSearch toStr response a) = false)
  /\ (forall c k cs a,
        Direct.error
          (Direct.runSearch (c :: k) (Direct.Stream (map Direct.Next cs)) a) = None)
  /\ (forall toStr fs a,
        Envelope.error
          (Envelope.runSearch toStr (Envelope.ok_response (map Envelope.Value fs)) a)
        = None).
Proof.
  repeat apply conj.
  - intros apiKey response a. unfold Direct.runSearch. by destruct (nonempty apiKey).
  - done.
  - apply direct_search_no_error.
  - apply envelope_search_no_error.
Qed.

(** ** A search starts from nothing *)

Lemma direct_shown_refl a : direct_same_shown a a.
Proof. by repeat split. Qed.

Lemma direct_on_lead_line_shown l a a' :
  direct_same_shown a a' ->
  direct_same_shown (Direct.on_lead_line l a) (Direct.on_lead_line l a').
Proof.
  intros (Hl & Hs & He & Hi). unfold Direct.on_lead_line.
  destruct (nonempty l); [|by repeat split].
  destruct (JSON.parse l); repeat split; simpl; congruence.
Qed.

Lemma direct_flush_shown b a a' :
  direct_same_shown a a' -> direct_same_shown (Direct.flush b a) (Direct.flush b a').
Proof.
  intros (Hl & Hs & He & Hi). unfold Direct.flush.
  destruct (nonempty (trim b)); [|by repeat split].
  destruct (JSON.parse (trim b)); repeat split; simpl; congruence.
Qed.

Lemma direct_on_chunk_shown c d d' :
  direct_same_run d d' -> direct_same_run (Direct.on_chunk c d) (Direct.on_chunk c d').
Proof.
  intros H. pose proof H as (Hjb & Hp & Ha).
  assert (direct_same_run (Direct.on_grounding c d) (Direct.on_grounding c d')) as Hg.
  { unfold Direct.on_grounding. destruct (Direct.groundingChunks c); [|exact H].
    rewrite <- Hp. destruct (0 <? length _)%nat; [|exact H].
    destruct Ha as (Hl & Hs & He & Hi). repeat split; simpl; congruence. }
  pose proof Hg as (Hjb1 & Hp1 & Ha1).
  unfold Direct.on_chunk, Direct.on_text.
  destruct (Direct.text c) as [t|]; [|exact Hg].
  destruct (nonempty t); [|exact Hg].
  rewrite <- Hjb1.
  pose proof (while_lines_rel direct_same_shown Direct.on_lead_line
                direct_on_lead_line_shown
                (Direct.jsonBuffer (Direct.on_grounding c d) ++ t) _ _ Ha1) as [Hb Hr].
  destruct (while_lines Direct.on_lead_line _ (Direct.app (Direct.on_grounding c d))).
  destruct (while_lines Direct.on_lead_line _ (Direct.app (Direct.on_grounding c d'))).
  by split; [|split].
Qed.

Lemma direct_for_await_shown items d d' :
  direct_same_run d d' ->
  direct_same_run (Direct.for_await items d).1 (Direct.for_await items d').1
  /\ (Direct.for_await items d).2 = (Direct.for_await items d').2.
Proof.
  revert d d'. induction items as [|[c|err] items IH]; intros d d' Hd;
    [by split| |by split].
  simpl. by apply IH, direct_on_chunk_shown.
Qed.

Lemma envelope_shown_refl a : envelope_same_shown a a.
Proof. by repeat split. Qed.

Lemma envelope_on_lead_line_shown l a a' :
  envelope_same_shown a a' ->
  envelope_same_shown (Envelope.on_lead_line l a) (Envelope.on_lead_line l a').
Proof.
  intros (Hl & Hs & He & Hi). unfold Envelope.on_lead_line.
  destruct (nonempty l); [|by repeat split].
  destruct (JSON.parse l); repeat split; simpl; congruence.
Qed.

Lemma envelope_flush_shown b a a' :
  envelope_same_shown a a' ->
  envelope_same_shown (Envelope.flush b a) (Envelope.flush b a').
Proof.
  intros (Hl & Hs & He & Hi). unfold Envelope.flush.
  destruct (nonempty (trim b)); [|by repeat split].
  destruct (JSON.parse (trim b)); repeat split; simpl; congruence.
Qed.

Lemma envelope_on_stream_line_shown toStr l st st' :
  st.1 = st'.1 -> envelope_same_shown st.2 st'.2 ->
  (Envelope.on_stream_line toStr l st).1 = (Envelope.on_stream_line toStr l st').1
  /\ envelope_same_shown (Envelope.on_stream_line toStr l st).2
       (Envelope.on_stream_line toStr l st').2.
Proof.
  destruct st as [jb a], st' as [jb' a']. simpl. intros <- Ha.
  assert (forall e, envelope_same_shown (Envelope.log e a) (Envelope.log e a')) as Hlog.
  { intros e. destruct Ha as (? & ? & ? & ?). by repeat split. }
  unfold Envelope.on_stream_line.
  destruct (nonempty l); [|done].
  destruct (JSON.parse l) as [message|]; [|by split; [|apply Hlog]].
  unfold Envelope.on_message.
  destruct (JSON.get (lit "type") message) as [type|]; [|by split; [|apply Hlog]].
  destruct (JSON.get (lit "payload") message) as [payload|]; [|by split; [|apply Hlog]].
  destruct (JSON.is_string (lit "content") type && JSON.truthy payload).
  - destruct payload as [p|]; [|done].
    destruct (JSON.to_string toStr p) as [s|]; [|by split; [|apply Hlog]].
    by apply (while_lines_rel envelope_same_shown Envelope.on_lead_line
                envelope_on_lead_line_shown).
  - destruct (JSON.is_string (lit "sources") type && JSON.truthy payload); [|done].
    destruct payload as [newChunks|]; [|done].
    split; [done|]. simpl. unfold Envelope.append_sources.
    destruct Ha as (Hl & Hs & He & Hi).
    destruct (JSON.spread newChunks); repeat split; simpl; congruence.
Qed.

Lemma envelope_read_loop_shown toStr reads d d' :
  Envelope.streamBuffer d = Envelope.streamBuffer d' ->
  Envelope.jsonBuffer d = Envelope.jsonBuffer d' ->
  envelope_same_shown (Envelope.app d) (Envelope.app d') ->
  let r := Envelope.read_loop toStr reads d in
  let r' := Envelope.read_loop toStr reads d' in
  Envelope.jsonBuffer r.1 = Envelope.jsonBuffer r'.1
  /\ envelope_same_shown (Envelope.app r.1) (Envelope.app r'.1)
  /\ r.2 = r'.2.
Proof.
  revert d d'. induction reads as [|[f|err] reads IH]; intros d d' Hsb Hjb Ha;
    [done| |done].
  simpl. apply IH; unfold Envelope.on_read; rewrite <- Hsb, <- Hjb.
  all: pose proof (while_lines_rel
                     (fun st st' => st.1 = st'.1 /\ envelope_same_shown st.2 st'.2)
                     (Envelope.on_stream_line toStr)
                     (fun l st st' H =>
                        envelope_on_stream_line_shown toStr l st st' (proj1 H) (proj2 H))
                     (Envelope.streamBuffer d ++ f)
                     (Envelope.jsonBuffer d, Envelope.app d)
                     (Envelope.jsonBuffer d, Envelope.app d')
                     (conj eq_refl Ha)) as (Hb & Hj & Hr).
  all: destruct (while_lines _ _ (Envelope.jsonBuffer d, Envelope.app d)) as [b [jb a]].
  all: destruct (while_lines _ _ (Envelope.jsonBuffer d, Envelope.app d')) as [b' [jb' a']].
  all: done.
Qed.

(** X2. A search shows nothing of what was there before it: the leads, the
    sources, the error and the loading flag at its end are the same whatever
    the state it started from (only the console, which nothing clears, and
    the record of a crashed render differ). *)
Theorem search_starts_from_nothing :
  (forall apiKey response a a',
     direct_same_shown (Direct.runSearch apiKey response a)
       (Direct.runSearch apiKey response a'))
  /\ (forall toStr response a a',
        envelope_same_shown (Envelope.runSearch toStr response a)
          (Envelope.runSearch toStr response a')).
Proof.
  split.
  - intros apiKey response a a'. unfold Direct.runSearch.
    destruct (nonempty apiKey); [|by repeat split].
    destruct response as [err|items]; [by repeat split|].
    unfold Direct.decode.
    destruct (direct_for_await_shown items (Direct.start (Direct.reset a))
                (Direct.start (Direct.reset a')))
      as ((Hjb & Hp & Ha) & Ho); [by repeat split|].
    destruct (Direct.for_await items (Direct.start (Direct.reset a))) as [d o].
    destruct (Direct.for_await items (Direct.start (Direct.reset a'))) as [d' o'].
    simpl in *. subst o'. destruct o as [err|].
    + destruct Ha as (Hl & Hs & He & Hi). repeat split; simpl; congruence.
    + rewrite <- Hjb.
      destruct (direct_flush_shown (Direct.jsonBuffer d) _ _ Ha) as (Hl & Hs & He & Hi).
      repeat split; simpl; congruence.
  - intros toStr response a a'. unfold Envelope.runSearch.
    destruct response as [err|r]; [by repeat split|].
    destruct (Envelope.ok r); [|by destruct (Envelope.text r); repeat split].
    destruct (Envelope.body r) as [reads|]; [|by repeat split].
    unfold Envelope.decode.
    destruct (envelope_read_loop_shown toStr reads (Envelope.start (Envelope.reset a))
                (Envelope.start (Envelope.reset a')) eq_refl eq_refl)
      as (Hjb & Ha & Ho); [by repeat split|].
    destruct (Envelope.read_loop toStr reads (Envelope.start (Envelope.reset a))) as [d o].
    destruct (Envelope.read_loop toStr reads (Envelope.start (Envelope.reset a'))) as [d' o'].
    simpl in *. subst o'. destruct o as [err|].
    + destruct Ha as (Hl & Hs & He & Hi). repeat split; simpl; congruence.
    + rewrite <- Hjb.
      destruct (envelope_flush_shown (Envelope.jsonBuffer d) _ _ Ha) as (Hl & Hs & He & Hi).
      repeat split; simpl; congruence.
Qed.

(** ** The sources of the SDK version and the uris it has seen *)

Lemma direct_on_chunk_seen_is_shown c d :
  direct_seen_is_shown d -> direct_seen_is_shown (Direct.on_chunk c d).
Proof.
  intros [Hseen Hshown]. unfold direct_seen_is_shown, Direct.on_chunk.
  destruct (direct_on_text_sources c (Direct.on_grounding c d)) as [-> ->].
  unfold Direct.on_grounding.
  destruct (Direct.groundingChunks c) as [newChunks|]; [|done].
  set (unique := List.filter _ newChunks).
  assert (forall g, g ∈ unique ->
            exists w, Direct.web g = Some w /\ nonempty (Direct.uri w) = true) as Hunique.
  { intros g Hg. apply list_elem_of_In, filter_In in Hg as [_ Hg].
    unfold Direct.is_unique_new in Hg.
    destruct (Direct.web g) as [w|]; [|discriminate].
    apply andb_true_iff in Hg as [Hg _]. by exists w. }
  destruct (0 <? length unique)%nat; [|done]. simpl. split.
  - intros u Hu. apply elem_of_add_uris in Hu as [Hu|(g & w & Hg & Hw & Hu)].
    + destruct (Hseen u Hu) as (g & w & Hg & Hw & Huri).
      exists g, w. split; [|done]. apply elem_of_app. by left.
    + exists g, w. split; [|done]. apply elem_of_app. by right.
  - intros g Hg. apply elem_of_app in Hg as [Hg|Hg]; [by apply Hshown|by apply Hunique].
Qed.

Lemma direct_for_await_seen_is_shown cs d :
  direct_seen_is_shown d ->
  direct_seen_is_shown (Direct.for_await (map Direct.Next cs) d).1.
Proof.
  revert d. induction cs as [|c cs IH]; intros d Hd; [done|].
  simpl. by apply IH, direct_on_chunk_seen_is_shown.
Qed.

(** X3. In the SDK version, all through a search, the set
    [processedSourceUris] holds exactly the uris of the sources on display,
    and every source on display has a [web] entry with a uri that is not
    empty. *)
Theorem sources_and_seen_uris_agree :
  forall cs a,
    let d := (Direct.for_await (map Direct.Next cs)
                (Direct.start (Direct.reset a))).1 in
    (forall u, u ∈ Direct.processedSourceUris d <->
       exists g w, g ∈ Direct.sources (Direct.app d)
                   /\ Direct.web g = Some w /\ Direct.uri w = u)
    /\ (forall g, g ∈ Direct.sources (Direct.app d) ->
          exists w, Direct.web g = Some w /\ nonempty (Direct.uri w) = true).
Proof.
  intros cs a d.
  assert (direct_seen_is_shown (Direct.start (Direct.reset a))) as H0.
  { split; [intros u Hu; by apply elem_of_empty in Hu|].
    intros g Hg. by apply elem_of_nil in Hg. }
  destruct (direct_for_await_seen_is_shown cs _ H0) as [Hseen Hshown].
  fold d in Hseen, Hshown.
  split; [|done]. intros u. split; [apply Hseen|].
  intros (g & w & Hg & Hw & <-).
  destruct (direct_recorded_for_await cs _ (direct_recorded_start a) g Hg)
    as (w' & Hw' & Hin).
  fold d in Hin. congruence.
Qed.

(** ** No line is lost without a trace *)

Lemma direct_on_lead_line_count l a :
  (length (Direct.leads (Direct.on_lead_line l a))
   + length (Direct.console (Direct.on_lead_line l a))
   = length (Direct.leads a) + length (Direct.console a)
     + (if nonempty l then 1 else 0))%nat.
Proof.
  unfold Direct.on_lead_line. destruct (nonempty l); [|lia].
  destruct (JSON.parse l); simpl; rewrite length_app; simpl; lia.
Qed.

Lemma direct_run_lines_count ls a :
  (length (Direct.leads (run_lines Direct.on_lead_line ls a))
   + length (Direct.console (run_lines Direct.on_lead_line ls a))
   = length (Direct.leads a) + length (Direct.console a)
     + length (List.filter (fun l => nonempty (trim l)) ls))%nat.
Proof.
  revert a. unfold run_lines. induction ls as [|l ls IH]; intros a; simpl; [lia|].
  rewrite IH, direct_on_lead_line_count.
  destruct (nonempty (trim l)); simpl; lia.
Qed.

Lemma direct_flush_count b a :
  (length (Direct.leads (Direct.flush b a)) + length (Direct.console (Direct.flush b a))
   = length (Direct.leads a) + length (Direct.console a)
     + (if nonempty (trim b) then 1 else 0))%nat.
Proof.
  unfold Direct.flush. destruct (nonempty (trim b)); [|lia].
  destruct (JSON.parse (trim b)); simpl; rewrite length_app; simpl; lia.
Qed.

Lemma envelope_on_lead_line_count l a :
  (length (Envelope.leads (Envelope.on_lead_line l a))
   + length (Envelope.console (Envelope.on_lead_line l a))
   = length (Envelope.leads a) + length (Envelope.console a)
     + (if nonempty l then 1 else 0))%nat.
Proof.
  unfold Envelope.on_lead_line. destruct (nonempty l); [|lia].
  destruct (JSON.parse l); simpl; rewrite length_app; simpl; lia.
Qed.

Lemma envelope_run_lines_count ls a :
  (length (Envelope.leads (run_lines Envelope.on_lead_line ls a))
   + length (Envelope.console (run_lines Envelope.on_lead_line ls a))
   = length (Envelope.leads a) + length (Envelope.console a)
     + length (List.filter (fun l => nonempty (trim l)) ls))%nat.
Proof.
  revert a. unfold run_lines. induction ls as [|l ls IH]; intros a; simpl; [lia|].
  rewrite IH, envelope_on_lead_line_count.
  destruct (nonempty (trim l)); simpl; lia.
Qed.

Lemma envelope_flush_count b a :
  (length (Envelope.leads (Envelope.flush b a))
   + length (Envelope.console (Envelope.flush b a))
   = length (Envelope.leads a) + length (Envelope.console a)
     + (if nonempty (trim b) then 1 else 0))%nat.
Proof.
  unfold Envelope.flush. destruct (nonempty (trim b)); [|lia].
  destruct (JSON.parse (trim b)); simpl; rewrite length_app; simpl; lia.
Qed.

Lemma length_filter_snoc {A} (p : A -> bool) xs x :
  length (List.filter p (xs ++ [x]))
  = (length (List.filter p xs) + (if p x then 1 else 0))%nat.
Proof.
  rewrite List.filter_app, length_app. simpl. by destruct (p x).
Qed.

(** X4. Every line of the payload text that is not blank leaves a trace: it
    becomes a lead or a warning on the console, one or the other.  In the SDK
    version the payload text is the text of the chunks, and a search whose
    chunks do not fail ends with as many leads and new console entries
    together as the text has lines that are not blank (the unterminated rest
    counts as a line).  In the envelope version the same holds when the reads
    do not fail and the body of the response is made of content envelopes,
    one on each line, whose payloads make up the text; what follows the last
    newline of the body is dropped.  (A line of the body that is no envelope
    gets a warning of its own: see the example after the run.) *)
Theorem every_line_is_a_lead_or_a_warning :
  forall c k toStr fsD fsE ps tail ls rest a a',
    concat fsD = unlines ls ++ rest ->
    concat fsE = unlines (map Envelope.content_line ps) ++ tail ->
    concat ps = unlines ls ++ rest ->
    Forall (fun l => indexOf LF l = None) ls ->
    indexOf LF rest = None ->
    indexOf LF tail = None ->
    let written := length (List.filter (fun l => nonempty (trim l)) (ls ++ [rest])) in
    let rD := Direct.runSearch (c :: k)
                (Direct.Stream (map (fun f => Direct.Next (Direct.text_chunk f)) fsD)) a in
    let rE := Envelope.runSearch toStr
                (Envelope.ok_response (map Envelope.Value fsE)) a' in
    (length (Direct.leads rD) + length (Direct.console rD)
     = length (Direct.console a) + written)%nat
    /\ (length (Envelope.leads rE) + length (Envelope.console rE)
        = length (Envelope.console a') + written)%nat.
Proof.
  intros c k toStr fsD fsE ps tail ls rest a a' HD HE Hps Hls Hrest Htail written rD rE.
  subst written rD rE. rewrite length_filter_snoc. split.
  - rewrite direct_runSearch_stream, direct_decode_text, HD. simpl.
    rewrite while_lines_unlines by done. simpl.
    rewrite direct_flush_count, direct_run_lines_count. simpl. lia.
  - rewrite envelope_runSearch_ok.
    rewrite (envelope_decode_content toStr fsE ps tail) by done. rewrite Hps. simpl.
    rewrite while_lines_unlines by done. simpl.
    rewrite envelope_flush_count, envelope_run_lines_count. simpl. lia.
Qed.

(** A run of [every_line_is_a_lead_or_a_warning]: a record, a blank line, a
    line of prose and a record without its newline give two leads and one
    warning. *)
Lemma every_line_is_a_lead_or_a_warning_witness :
  let text := unlines [lit "{'name':'A'}"; lit "  "; lit "Sure, here it is:"] ++ lit "7" in
  let rD := Direct.runSearch (lit "key")
              (Direct.Stream [Direct.Next (Direct.text_chunk text)]) Direct.initial in
  let rE := Envelope.runSearch Envelope.lexeme_text
              (Envelope.ok_response [Envelope.Value (unlines [Envelope.content_line text])])
              Envelope.initial in
  (length (Direct.leads rD) + length (Direct.console rD) = 3)%nat
  /\ (length (Envelope.leads rE) + length (Envelope.console rE) = 3)%nat.
Proof.
  intros text rD rE.
  apply (every_line_is_a_lead_or_a_warning 107 (lit "ey") Envelope.lexeme_text
           [text] [unlines [Envelope.content_line text]] [text] []
           [lit "{'name':'A'}"; lit "  "; lit "Sure, here it is:"] (lit "7")
           Direct.initial Envelope.initial).
  - vm_compute; reflexivity.
  - vm_compute; reflexivity.
  - vm_compute; reflexivity.
  - repeat constructor.
  - reflexivity.
  - reflexivity.
Defined.

(** Why the body of the envelope version must be made of content envelopes:
    a line of the body that does not parse is warned about too, so one
    payload line gives here one lead and one console entry, with no error. *)
Example a_body_line_that_is_no_envelope_warns :
  let body := unlines [Envelope.content_line (lit "{'name':'A'}" ++ [LF]);
                       lit "data: keep-alive"] in
  let r := Envelope.runSearch Envelope.lexeme_text
             (Envelope.ok_response [Envelope.Value body]) Envelope.initial in
  Envelope.leads r = [JSON.JObject [(lit "name", JSON.JString (lit "A"))]]
  /\ Envelope.console r
     = [Warn (lit "Could not parse stream message:") (lit "data: keep-alive")
          CaughtSyntaxError]
  /\ Envelope.error r = None.
Proof. vm_compute. repeat split; reflexivity. Qed.

(** ** Text and grounding do not interfere *)

Lemma direct_on_lead_line_decoded l a a' :
  direct_same_decoded a a' ->
  direct_same_decoded (Direct.on_lead_line l a) (Direct.on_lead_line l a').
Proof.
  intros [Hl Hc]. unfold Direct.on_lead_line.
  destruct (nonempty l); [|by split].
  destruct (JSON.parse l); split; simpl; congruence.
Qed.

Lemma direct_same_decoded_trans a b c :
  direct_same_decoded a b -> direct_same_decoded b c -> direct_same_decoded a c.
Proof. intros [? ?] [? ?]. split; congruence. Qed.

Lemma direct_on_grounding_decoded c d :
  Direct.jsonBuffer (Direct.on_grounding c d) = Direct.jsonBuffer d
  /\ direct_same_decoded (Direct.app (Direct.on_grounding c d)) (Direct.app d).
Proof.
  unfold Direct.on_grounding. destruct (Direct.groundingChunks c); [|by repeat split].
  by destruct (0 <? length _)%nat.
Qed.

(** One chunk, seen from the text: the loop runs over the buffer and the text
    of the chunk, if it has one. *)
Lemma direct_on_chunk_decoded c d :
  indexOf LF (Direct.jsonBuffer d) = None ->
  let r := while_lines Direct.on_lead_line
             (Direct.jsonBuffer d ++ default [] (Direct.text c)) (Direct.app d) in
  Direct.jsonBuffer (Direct.on_chunk c d) = r.1
  /\ direct_same_decoded (Direct.app (Direct.on_chunk c d)) r.2.
Proof.
  intros Hd r. subst r.
  destruct (direct_on_grounding_decoded c d) as [Hjb Ha].
  unfold Direct.on_chunk, Direct.on_text.
  destruct (Direct.text c) as [[|x t]|]; simpl.
  - by rewrite app_nil_r, while_lines_done.
  - rewrite Hjb.
    pose proof (while_lines_rel direct_same_decoded Direct.on_lead_line
                  direct_on_lead_line_decoded (Direct.jsonBuffer d ++ x :: t) _ _ Ha)
      as [Hb Hr].
    by destruct (while_lines Direct.on_lead_line _ (Direct.app (Direct.on_grounding c d))).
  - by rewrite app_nil_r, while_lines_done.
Qed.

Lemma direct_for_await_decoded cs d :
  indexOf LF (Direct.jsonBuffer d) = None ->
  let r := while_lines Direct.on_lead_line
             (Direct.jsonBuffer d ++ concat (map (fun c => default [] (Direct.text c)) cs))
             (Direct.app d) in
  Direct.jsonBuffer (Direct.for_await (map Direct.Next cs) d).1 = r.1
  /\ direct_same_decoded (Direct.app (Direct.for_await (map Direct.Next cs) d).1) r.2.
Proof.
  revert d. induction cs as [|c cs IH]; intros d Hd; simpl.
  - by rewrite app_nil_r, while_lines_done.
  - destruct (direct_on_chunk_decoded c d Hd) as [Hjb Ha].
    pose proof (while_lines_drained Direct.on_lead_line
                  (Direct.jsonBuffer d ++ default [] (Direct.text c)) (Direct.app d)) as Hdr.
    rewrite <- Hjb in Hdr.
    destruct (IH (Direct.on_chunk c d) Hdr) as [Hjb' Ha'].
    rewrite Hjb', Hjb. clear IH Hjb'.
    pose proof (while_lines_rel direct_same_decoded Direct.on_lead_line
                  direct_on_lead_line_decoded
                  (Direct.jsonBuffer (Direct.on_chunk c d)
                     ++ concat (map (fun c => default [] (Direct.text c)) cs))
                  _ _ Ha) as [Hb Hr].
    rewrite Hjb in Hb, Hr, Ha'.
    rewrite while_lines_app, <- app_assoc in Hb, Hr.
    split; [done|]. by eapply direct_same_decoded_trans.
Qed.

Lemma direct_flush_decoded b a a' :
  direct_same_decoded a a' ->
  direct_same_decoded (Direct.flush b a) (Direct.flush b a').
Proof.
  intros [Hl Hc]. unfold Direct.flush.
  destruct (nonempty (trim b)); [|by split].
  destruct (JSON.parse (trim b)); split; simpl; congruence.
Qed.

Lemma direct_on_chunk_grounding_only c d d' :
  Direct.processedSourceUris d = Direct.processedSourceUris d' ->
  Direct.sources (Direct.app d) = Direct.sources (Direct.app d') ->
  Direct.processedSourceUris (Direct.on_chunk c d)
  = Direct.processedSourceUris (Direct.on_chunk (grounding_only c) d')
  /\ Direct.sources (Direct.app (Direct.on_chunk c d))
     = Direct.sources (Direct.app (Direct.on_chunk (grounding_only c) d')).
Proof.
  intros Hp Hs. unfold Direct.on_chunk.
  destruct (direct_on_text_sources c (Direct.on_grounding c d)) as [-> ->].
  destruct (direct_on_text_sources (grounding_only c)
              (Direct.on_grounding (grounding_only c) d')) as [-> ->].
  unfold Direct.on_grounding, grounding_only. simpl.
  destruct (Direct.groundingChunks c); [|done].
  rewrite <- Hp. destruct (0 <? length _)%nat; [|done]. simpl. by rewrite Hs.
Qed.

Lemma direct_for_await_grounding_only cs d d' :
  Direct.processedSourceUris d = Direct.processedSourceUris d' ->
  Direct.sources (Direct.app d) = Direct.sources (Direct.app d') ->
  Direct.sources (Direct.app (Direct.for_await (map Direct.Next cs) d).1)
  = Direct.sources
      (Direct.app (Direct.for_await (map Direct.Next (map grounding_only cs)) d').1).
Proof.
  revert d d'. induction cs as [|c cs IH]; intros d d' Hp Hs; [done|].
  simpl. destruct (direct_on_chunk_grounding_only c d d' Hp Hs) as [Hp' Hs'].
  by apply IH.
Qed.

Lemma direct_flush_sources b a : Direct.sources (Direct.flush b a) = Direct.sources a.
Proof.
  unfold Direct.flush. destruct (nonempty (trim b)); [|done].
  by destruct (JSON.parse (trim b)).
Qed.

Lemma direct_decode_next cs a :
  Direct.decode (map Direct.Next cs) a
  = Direct.flush (Direct.jsonBuffer (Direct.for_await (map Direct.Next cs) (Direct.start a)).1)
      (Direct.app (Direct.for_await (map Direct.Next cs) (Direct.start a)).1).
Proof.
  unfold Direct.decode.
  destruct (direct_for_await_error cs (Direct.start a)) as [_ Hn].
  destruct (Direct.for_await (map Direct.Next cs) (Direct.start a)) as [d o].
  simpl in *. by subst o.
Qed.

(** X5. In the SDK version the text and the grounding metadata of the chunks
    do not interfere: the leads (and the console) of a search are those of
    the concatenated text of its chunks fed as one chunk, whatever grounding
    the chunks carry and however the text is split over them; and the sources
    are those of the same chunks without their text. *)
Theorem text_and_grounding_are_independent :
  forall c k cs a,
    let r := Direct.runSearch (c :: k) (Direct.Stream (map Direct.Next cs)) a in
    let text := concat (map (fun c => default [] (Direct.text c)) cs) in
    let r_text := Direct.runSearch (c :: k)
                    (Direct.Stream [Direct.Next (Direct.text_chunk text)]) a in
    let r_grounding := Direct.runSearch (c :: k)
                         (Direct.Stream (map Direct.Next (map grounding_only cs))) a in
    Direct.leads r = Direct.leads r_text
    /\ Direct.console r = Direct.console r_text
    /\ Direct.sources r = Direct.sources r_grounding.
Proof.
  intros c k cs a r text r_text r_grounding. subst r r_text r_grounding.
  rewrite !direct_runSearch_stream.
  assert (direct_same_decoded (Direct.decode (map Direct.Next cs) (Direct.reset a))
            (Direct.decode [Direct.Next (Direct.text_chunk text)] (Direct.reset a)))
    as [Hl Hc].
  { rewrite direct_decode_next.
    change [Direct.Next (Direct.text_chunk text)]
      with (map (fun f => Direct.Next (Direct.text_chunk f)) [text]).
    rewrite direct_decode_text. simpl. rewrite app_nil_r.
    destruct (direct_for_await_decoded cs (Direct.start (Direct.reset a)) eq_refl)
      as [Hjb Ha].
    simpl in Hjb, Ha. fold text in Hjb, Ha. rewrite Hjb.
    by apply direct_flush_decoded. }
  split; [exact Hl|]. split; [exact Hc|].
  rewrite !direct_decode_next.
  change (Direct.sources (Direct.finally ?x)) with (Direct.sources x).
  rewrite !direct_flush_sources.
  by apply direct_for_await_grounding_only.
Qed.

(** * The handlers around [runSearch] *)

(** ** Trimming *)

Lemma trimStart_split s :
  exists w, s = w ++ trimStart s /\ Forall (fun c => is_trim_space c = true) w.
Proof.
  induction s as [|c s (w & Hs & Hw)]; [by exists []|].
  simpl. destruct (is_trim_space c) eqn:Hc; [|by exists []].
  exists (c :: w). split; [by rewrite <- app_comm_cons, <- Hs|by constructor].
Qed.

Lemma trimStart_head s c r : trimStart s = c :: r -> is_trim_space c = false.
Proof.
  induction s as [|x s IH]; simpl; [discriminate|].
  destruct (is_trim_space x) eqn:Hx; [done|]. by intros [= <- _].
Qed.

(** What [trim] returns is empty, or starts and ends with a character that
    is no white space. *)
Lemma trim_ends s :
  trim s = []
  \/ exists a r z r', trim s = a :: r /\ is_trim_space a = false
                      /\ rev (trim s) = z :: r' /\ is_trim_space z = false.
Proof.
  unfold trim, trimEnd.
  destruct (trimStart (rev (trimStart s))) as [|z r'] eqn:Hu; [by left|right].
  pose proof (trimStart_head _ _ _ Hu) as Hz.
  destruct (trimStart_split (rev (trimStart s))) as (w & Hsplit & _).
  rewrite Hu in Hsplit.
  assert (trimStart s = rev (z :: r') ++ rev w) as Ht
    by (by rewrite <- rev_app_distr, <- Hsplit, rev_involutive).
  destruct (rev (z :: r')) as [|a r] eqn:Hx.
  { apply (f_equal (@length N)) in Hx. rewrite length_rev in Hx. discriminate. }
  exists a, r, z, r'. split; [done|]. split.
  - rewrite <- app_comm_cons in Ht. by apply trimStart_head in Ht.
  - split; [|done]. by rewrite <- Hx, rev_involutive.
Qed.

Lemma trim_fixed a r z r' :
  is_trim_space a = false -> rev (a :: r) = z :: r' -> is_trim_space z = false ->
  trim (a :: r) = a :: r.
Proof.
  intros Ha Hrev Hz. unfold trim, trimEnd. cbn [trimStart]. rewrite Ha, Hrev.
  cbn [trimStart]. by rewrite Hz, <- Hrev, rev_involutive.
Qed.

Lemma trim_idempotent s : trim (trim s) = trim s.
Proof.
  destruct (trim_ends s) as [->|(a & r & z & r' & Hs & Ha & Hrev & Hz)]; [done|].
  rewrite Hs in *. by eapply trim_fixed.
Qed.

(** A text without white space at either end is its own trim. *)
Lemma trim_no_space s :
  Forall (fun c => is_trim_space c = false) s -> trim s = s.
Proof.
  intros Hs. destruct s as [|a r]; [done|].
  destruct (rev (a :: r)) as [|z r'] eqn:Hrev.
  { apply (f_equal (@length N)) in Hrev. rewrite length_rev in Hrev. discriminate. }
  apply (trim_fixed a r z r'); [by inversion Hs|done|].
  assert (z ∈ a :: r) as Hz.
  { apply elem_of_reverse. unfold reverse. rewrite <- rev_alt, Hrev. by left. }
  by apply (proj1 (Forall_forall _ _) Hs).
Qed.

(** ** The API key *)

(** X6. [handleSaveKey] accepts a key only if something is left of it after
    trimming.  The key it keeps and stores is then the trimmed text: it is
    not empty and has no white space around it, the mount effect of a later
    visit restores it from the storage, and a search that uses it and meets
    no transport failure shows no error (the message about a missing key
    included).  A blank entry changes neither the key nor the storage and
    shows the message that asks for a valid key. *)
Theorem a_saved_key_is_usable :
  forall st,
    let st' := Ui.handleSaveKey st in
    if nonempty (trim (Ui.tempApiKey st)) then
      Ui.apiKey st' = trim (Ui.tempApiKey st)
      /\ Ui.storedKey st' = Some (Ui.apiKey st')
      /\ Ui.isKeySaved st' = true
      /\ Ui.keyError st' = None
      /\ nonempty (Ui.apiKey st') = true
      /\ trim (Ui.apiKey st') = Ui.apiKey st'
      /\ (forall later,
            Ui.storedKey later = Ui.storedKey st' ->
            Ui.apiKey (Ui.load_key later) = Ui.apiKey st'
            /\ Ui.isKeySaved (Ui.load_key later) = true)
      /\ (forall cs a,
            Direct.error
              (Direct.runSearch (Ui.apiKey st') (Direct.Stream (map Direct.Next cs)) a)
            = None)
    else
      Ui.apiKey st' = Ui.apiKey st
      /\ Ui.storedKey st' = Ui.storedKey st
      /\ Ui.isKeySaved st' = Ui.isKeySaved st
      /\ Ui.keyError st' = Some (lit "Please enter a valid API Key.").
Proof.
  intros st st'. subst st'. unfold Ui.handleSaveKey.
  destruct (nonempty (trim (Ui.tempApiKey st))) eqn:Hkey; [|done].
  cbn [Ui.apiKey Ui.storedKey Ui.isKeySaved Ui.keyError].
  do 5 (split; [done|]). split; [apply trim_idempotent|]. split.
  - intros later Hlater. unfold Ui.load_key. rewrite Hlater. by rewrite Hkey.
  - intros cs a. destruct (trim (Ui.tempApiKey st)) as [|c k]; [discriminate|].
    apply direct_search_no_error.
Qed.

(** ** The search form and the saved searches that fill it in *)

Lemma lazy_dot_unfold {A} (k : jsstring -> option A) acc s :
  Ui.lazy_dot k acc s
  = match k s with
    | Some a => Some (rev acc, a)
    | None =>
        match s with
        | [] => None
        | c :: r => if Ui.is_line_terminator c then None else Ui.lazy_dot k (c :: acc) r
        end
    end.
Proof. by destruct s. Qed.

(** A lazy group takes [t] when what follows [t] matches and nothing that
    starts inside [t] does. *)
Lemma lazy_dot_run {A} (k : jsstring -> option A) t rest acc a :
  Forall (fun c => Ui.is_line_terminator c = false) t ->
  (forall t1 c t2, t = t1 ++ c :: t2 -> k (c :: t2 ++ rest) = None) ->
  k rest = Some a ->
  Ui.lazy_dot k acc (t ++ rest) = Some (rev acc ++ t, a).
Proof.
  intros Ht Hno Hk. revert acc.
  induction t as [|c t IH]; intros acc; rewrite lazy_dot_unfold.
  - simpl. by rewrite Hk, app_nil_r.
  - rewrite <- app_comm_cons, (Hno [] c t eq_refl).
    inversion Ht as [|? ? Hc Ht']; subst. rewrite Hc.
    rewrite IH; [simpl; by rewrite <- app_assoc|done|].
    intros t1 c' t2 ->. by apply (Hno (c :: t1) c' t2).
Qed.

Lemma strip_prefix_app p s : JSON.strip_prefix p (p ++ s) = Some s.
Proof. induction p as [|a p IH]; [done|]. simpl. by rewrite N.eqb_refl. Qed.

Lemma span_digits_app ds c r :
  Forall (fun d => JSON.is_digit d = true) ds -> JSON.is_digit c = false ->
  JSON.span_digits (ds ++ c :: r) = (ds, c :: r).
Proof.
  intros Hds Hc. induction Hds as [|d ds Hd _ IH]; simpl; [by rewrite Hc|].
  by rewrite Hd, IH.
Qed.

Lemma starts_with_app p r : starts_with p (p ++ r) = true.
Proof. induction p as [|a p IH]; [done|]. simpl. by rewrite N.eqb_refl. Qed.

Lemma plain_Forall s :
  forallb Ui.plain s = true ->
  Forall (fun c => Ui.is_line_terminator c = false) s /\ Forall (fun c => c <> 34) s.
Proof.
  intros H. pose proof (proj1 (forallb_forall _ _) H) as Hall.
  split; apply Forall_forall; intros c Hc.
  - apply list_elem_of_In, Hall in Hc. unfold Ui.plain in Hc.
    apply andb_true_iff in Hc as [_ Hc]. by apply negb_true_iff in Hc.
  - apply list_elem_of_In, Hall in Hc. unfold Ui.plain in Hc.
    apply andb_true_iff in Hc as [Hc _]. apply negb_true_iff in Hc.
    by apply N.eqb_neq in Hc.
Qed.

Lemma digit_is_no_space d : JSON.is_digit d = true -> is_trim_space d = false.
Proof.
  unfold JSON.is_digit, is_trim_space. intros H.
  apply andb_true_iff in H as [H1 H2].
  apply N.leb_le in H1. apply N.leb_le in H2.
  repeat match goal with
         | |- context [?x =? ?y] => destruct (N.eqb_spec x y); [lia|]
         end.
  destruct (N.leb_spec 8192 d); [lia|]. done.
Qed.

(** The radius part of a query built by [findLeads] from a radius made of
    digits. *)
Lemma match_radius_built radius :
  forallb JSON.is_digit radius = true ->
  Ui.match_radius
    (if nonempty (trim radius)
     then lit " within a " ++ radius ++ lit " km radius" else [])
  = match radius with [] => None | _ :: _ => Some radius end.
Proof.
  intros Hd. destruct radius as [|d r]; [done|].
  assert (Forall (fun c => JSON.is_digit c = true) (d :: r)) as Hds.
  { apply Forall_forall. intros c Hc. apply list_elem_of_In in Hc.
    by apply (proj1 (forallb_forall _ _) Hd). }
  rewrite trim_no_space by (eapply Forall_impl; [exact Hds|apply digit_is_no_space]).
  cbn [nonempty]. unfold Ui.match_radius. rewrite strip_prefix_app.
  change (lit " km radius") with (32 :: lit "km radius").
  rewrite span_digits_app by done.
  cbn [nonempty andb].
  change (32 :: lit "km radius") with (lit " km radius" ++ []).
  by rewrite starts_with_app.
Qed.

Lemma match_here_built keyword location suffix :
  forallb Ui.plain keyword = true ->
  forallb Ui.plain location = true ->
  Ui.match_here
    (lit "'" ++ keyword ++ lit "' in '" ++ location ++ lit "'" ++ suffix)
  = Some (keyword, location, Ui.match_radius suffix).
Proof.
  intros [Hk1 Hk2]%plain_Forall [Hl1 Hl2]%plain_Forall.
  change (lit "'" ++ ?x) with (34 :: x). cbn [Ui.match_here N.eqb Pos.eqb].
  rewrite (lazy_dot_run _ keyword _ [] (location, Ui.match_radius suffix)); [done|done| |].
  - intros t1 c t2 ->. apply Forall_app in Hk2 as [_ Hc]. inversion Hc; subst.
    change (lit "' in '") with (34 :: lit " in '"). cbn [JSON.strip_prefix].
    by destruct (N.eqb_spec 34 c).
  - rewrite strip_prefix_app.
    rewrite (lazy_dot_run _ location _ [] (Ui.match_radius suffix)); [done|done| |done].
    intros t1 c t2 ->. apply Forall_app in Hl2 as [_ Hc]. inversion Hc; subst.
    by destruct (N.eqb_spec c 34).
Qed.

Lemma query_match_here query parts :
  Ui.match_here query = Some parts -> Ui.query_match query = Some parts.
Proof. intros H. destruct query; simpl in *; by rewrite H. Qed.

(** X7. A search saved from the form comes back into the form.  When the
    keyword and the location hold no double quote and no line break, and the
    radius is empty or made of digits, the query that [findLeads] builds and
    runs is taken apart again by [handleSavedSearchClick] into the same
    keyword, location and radius, whatever the form held before, and the same
    query is run. *)
Theorem a_saved_search_fills_the_form_again :
  forall f other,
    forallb Ui.plain (Ui.keyword f) = true ->
    forallb Ui.plain (Ui.location f) = true ->
    forallb JSON.is_digit (Ui.radius f) = true ->
    nonempty (trim (Ui.keyword f)) = true ->
    nonempty (trim (Ui.location f)) = true ->
    let query := Ui.fullQuery f in
    let restored :=
      {| Ui.keyword := Ui.keyword f; Ui.location := Ui.location f;
         Ui.radius := Ui.radius f; Ui.mapQuery := query |} in
    Ui.findLeads f = (restored, Some query)
    /\ Ui.handleSavedSearchClick query other = (restored, query).
Proof.
  intros f other Hk Hl Hr Hkt Hlt query restored. subst query restored. split.
  - unfold Ui.findLeads. by rewrite Hkt, Hlt.
  - unfold Ui.handleSavedSearchClick, Ui.fullQuery.
    rewrite (query_match_here _ _ (match_here_built _ _ _ Hk Hl)).
    rewrite match_radius_built by done.
    by destruct (Ui.radius f).
Qed.

(** A run of [a_saved_search_fills_the_form_again]. *)
Lemma a_saved_search_fills_the_form_again_witness :
  let f := {| Ui.keyword := lit "coffee shop"; Ui.location := lit "Bandung";
              Ui.radius := lit "5"; Ui.mapQuery := [] |} in
  let other := {| Ui.keyword := lit "x"; Ui.location := []; Ui.radius := lit "1";
                  Ui.mapQuery := lit "y" |} in
  let query := lit "'coffee shop' in 'Bandung' within a 5 km radius" in
  let restored :=
    {| Ui.keyword := lit "coffee shop"; Ui.location := lit "Bandung";
       Ui.radius := lit "5"; Ui.mapQuery := query |} in
  Ui.findLeads f = (restored, Some query)
  /\ Ui.handleSavedSearchClick query other = (restored, query).
Proof.
  intros f other query restored.
  apply (a_saved_search_fills_the_form_again f other); reflexivity.
Defined.

(** Outside these conditions the parts can differ: a radius with a decimal
    point is dropped, and a keyword with a quote in it is cut short. *)
Example saved_searches_that_do_not_come_back :
  let click q :=
    (Ui.handleSavedSearchClick (lit q)
       {| Ui.keyword := []; Ui.location := []; Ui.radius := []; Ui.mapQuery := [] |}).1 in
  Ui.radius (click "'cafe' in 'Bandung' within a 2.5 km radius"%string) = []
  /\ Ui.keyword (click "'a' in 'b' in 'c'"%string) = lit "a"
  /\ Ui.location (click "'a' in 'b' in 'c'"%string) = lit "b".
Proof. vm_compute. repeat split; reflexivity. Qed.

(** ** Saving a search *)

Lemma strings_of_strings xs :
  Ui.strings_of (JSON.JArray (map JSON.JString xs)) = Some xs.
Proof.
  unfold Ui.strings_of. apply mapM_Some. induction xs; by constructor.
Qed.

Lemma NoDup_map_filter {A B} (f : A -> B) (p : A -> bool) l :
  NoDup (map f l) -> NoDup (map f (List.filter p l)).
Proof.
  induction l as [|x l IH]; simpl; [done|].
  intros [Hx Hl]%NoDup_cons. destruct (p x); simpl; [|by apply IH].
  apply NoDup_cons. split; [|by apply IH].
  intros Hin. apply Hx. apply list_elem_of_In, in_map_iff in Hin as (y & Hy & Hin).
  apply filter_In in Hin as [Hin _].
  apply list_elem_of_In, in_map_iff. by exists y.
Qed.

Lemma elem_of_updatedSearches toLowerCase last saved s :
  s ∈ Ui.updatedSearches toLowerCase last saved <->
  s = last \/ (s ∈ saved /\ toLowerCase s <> toLowerCase last).
Proof.
  unfold Ui.updatedSearches. rewrite elem_of_cons.
  rewrite list_elem_of_In, filter_In, <- list_elem_of_In.
  rewrite negb_true_iff, bool_decide_eq_false. tauto.
Qed.

(** X8. [saveSearch] puts the search at the head of the saved ones and
    removes what equals it up to case.  So a list without two entries that
    are equal up to case stays one, every other entry is kept, and the list
    stays an array of strings; the save button is switched off, and a second
    click does nothing. *)
Theorem saved_searches_stay_distinct :
  forall toLowerCase st saved,
    Ui.strings_of (Ui.savedSearches st) = Some saved ->
    nonempty (Ui.lastSearch st) = true ->
    Ui.canSaveSearch st = true ->
    NoDup (map toLowerCase saved) ->
    exists st' updated,
      Ui.saveSearch toLowerCase st = Some st'
      /\ Ui.strings_of (Ui.savedSearches st') = Some updated
      /\ head updated = Some (Ui.lastSearch st)
      /\ NoDup (map toLowerCase updated)
      /\ (forall s, s ∈ updated <->
                    s = Ui.lastSearch st
                    \/ (s ∈ saved /\ toLowerCase s <> toLowerCase (Ui.lastSearch st)))
      /\ Ui.canSaveSearch st' = false
      /\ Ui.saveSearch toLowerCase st' = Some st'.
Proof.
  intros toLowerCase st saved Hsaved Hlast Hcan Hdistinct.
  eexists _, (Ui.updatedSearches toLowerCase (Ui.lastSearch st) saved).
  unfold Ui.saveSearch at 1. rewrite Hlast, Hcan, Hsaved. cbn [negb orb].
  split; [reflexivity|]. cbn [Ui.savedSearches Ui.canSaveSearch].
  split; [apply strings_of_strings|]. split; [done|]. split.
  - unfold Ui.updatedSearches. cbn [map]. apply NoDup_cons. split.
    + intros Hin. apply list_elem_of_In, in_map_iff in Hin as (y & Hy & Hin).
      apply filter_In in Hin as [_ Hin].
      apply negb_true_iff, bool_decide_eq_false in Hin. done.
    + by apply NoDup_map_filter.
  - split; [apply elem_of_updatedSearches|]. split; [done|].
    unfold Ui.saveSearch. cbn [Ui.canSaveSearch negb]. by rewrite orb_true_r.
Qed.

(** A run of [saved_searches_stay_distinct], with a stand-in for the case
    tables that lowers the letters A to Z. *)
Lemma saved_searches_stay_distinct_witness :
  let lower := map (fun c => if (65 <=? c) && (c <=? 90) then c + 32 else c) in
  let saved := [lit "Cafe in Bandung"; lit "bakery in Garut"] in
  let st := {| Ui.savedSearches := JSON.JArray (map JSON.JString saved);
               Ui.lastSearch := lit "cafe in bandung";
               Ui.canSaveSearch := true;
               Ui.stored := None |} in
  exists st' updated,
    Ui.saveSearch lower st = Some st'
    /\ Ui.strings_of (Ui.savedSearches st') = Some updated
    /\ head updated = Some (lit "cafe in bandung")
    /\ NoDup (map lower updated)
    /\ (forall s, s ∈ updated <->
                  s = lit "cafe in bandung"
                  \/ (s ∈ saved /\ lower s <> lower (lit "cafe in bandung")))
    /\ Ui.canSaveSearch st' = false
    /\ Ui.saveSearch lower st' = Some st'.
Proof.
  intros lower saved st.
  apply (saved_searches_stay_distinct lower st saved).
  - reflexivity.
  - reflexivity.
  - reflexivity.
  - apply (bool_decide_unpack _). vm_compute. exact I.
Defined.

(** ** Saved searches outlive the page *)

Lemma hex_digit_hex_char n : n < 16 -> JSON.hex_digit (JSON.hex_char n) = Some n.
Proof.
  intros Hn.
  assert (exists m, (m < 16)%nat /\ n = N.of_nat m) as (m & Hm & ->)
    by (exists (N.to_nat n); lia).
  do 16 (destruct m as [|m]; [reflexivity|]). lia.
Qed.

Lemma lex_string_hex4 c acc rest :
  c < 65536 ->
  JSON.lex_string acc (92 :: 117 :: Ui.hex4 c ++ rest) = JSON.lex_string (c :: acc) rest.
Proof.
  intros Hc. unfold Ui.hex4. cbn [JSON.lex_string app N.eqb N.ltb N.compare Pos.eqb
    Pos.compare Pos.compare_cont].
  assert (c / 4096 < 16) by (apply N.Div0.div_lt_upper_bound; lia).
  assert ((c / 256) mod 16 < 16) by (apply N.mod_lt; lia).
  assert ((c / 16) mod 16 < 16) by (apply N.mod_lt; lia).
  assert (c mod 16 < 16) by (apply N.mod_lt; lia).
  rewrite !hex_digit_hex_char by done.
  f_equal. f_equal.
  pose proof (N.div_mod c 16 ltac:(lia)).
  pose proof (N.div_mod (c / 16) 16 ltac:(lia)).
  pose proof (N.div_mod (c / 256) 16 ltac:(lia)).
  assert (c / 16 / 16 = c / 256) as E1 by (rewrite N.Div0.div_div; done).
  assert (c / 256 / 16 = c / 4096) as E2 by (rewrite N.Div0.div_div; done).
  rewrite E1 in *. rewrite E2 in *.
  assert ((c / 4096) mod 16 = c / 4096) as E3 by (apply N.mod_small; done).
  lia.
Qed.

Lemma lex_string_literal c acc rest :
  c <> 34 -> 32 <= c -> c <> 92 ->
  JSON.lex_string acc (c :: rest) = JSON.lex_string (c :: acc) rest.
Proof.
  intros H34 H32 H92. cbn [JSON.lex_string].
  destruct (N.eqb_spec c 34); [done|].
  destruct (N.ltb_spec c 32); [lia|].
  by destruct (N.eqb_spec c 92).
Qed.

Lemma surrogate_bounds c :
  (Ui.is_high_surrogate c = true -> 55296 <= c <= 56319)
  /\ (Ui.is_low_surrogate c = true -> 56320 <= c <= 57343).
Proof.
  unfold Ui.is_high_surrogate, Ui.is_low_surrogate.
  split; intros [H1 H2]%andb_true_iff; apply N.leb_le in H1; apply N.leb_le in H2; lia.
Qed.

(** [JSON.parse] reads a string back from what [JSON.stringify] writes. *)
Lemma lex_string_stringify s : forall acc rest,
  JSON.lex_string acc (Ui.stringify_units s ++ 34 :: rest) = Some (rev acc ++ s, rest).
Proof.
  remember (length s) as n eqn:Hn. revert s Hn.
  induction n as [n IH] using lt_wf_ind. intros s -> acc rest.
  assert (forall s' acc, (length s' < length s)%nat ->
            JSON.lex_string acc (Ui.stringify_units s' ++ 34 :: rest)
            = Some (rev acc ++ s', rest)) as IH'
    by (intros s' acc' Hlen; by apply (IH _ Hlen)).
  clear IH. destruct s as [|c s]; [simpl; by rewrite app_nil_r|].
  cbn [Ui.stringify_units].
  destruct (Ui.is_high_surrogate c) eqn:Hhigh.
  - apply surrogate_bounds in Hhigh.
    destruct s as [|d s].
    + rewrite <- !app_comm_cons, lex_string_hex4 by lia. reflexivity.
    + destruct (Ui.is_low_surrogate d) eqn:Hlow.
      * apply surrogate_bounds in Hlow.
        rewrite <- !app_comm_cons, !lex_string_literal by lia.
        rewrite IH' by (simpl; lia). simpl. by rewrite <- !app_assoc.
      * rewrite <- !app_comm_cons, <- app_assoc, lex_string_hex4 by lia.
        rewrite IH' by (simpl; lia). simpl. by rewrite <- app_assoc.
  - destruct (Ui.is_low_surrogate c) eqn:Hlow.
    + apply surrogate_bounds in Hlow.
      rewrite <- !app_comm_cons, <- app_assoc, lex_string_hex4 by lia.
      rewrite IH' by (simpl; lia). simpl. by rewrite <- app_assoc.
    + rewrite <- app_assoc, lex_string_escape_unit.
      rewrite IH' by (simpl; lia). simpl. by rewrite <- app_assoc.
Qed.

Lemma parse_value_stringify_string fuel s rest :
  JSON.parse_value (S fuel) (Ui.stringify_string s ++ rest)
  = JSON.Parsed (JSON.JString s) rest.
Proof.
  unfold Ui.stringify_string. rewrite <- app_comm_cons, <- app_assoc.
  cbn [JSON.parse_value JSON.skip_ws JSON.is_ws N.eqb Pos.eqb orb app].
  by rewrite lex_string_stringify.
Qed.

Lemma join_cons sep x y r :
  Ui.join sep (x :: y :: r) = x ++ sep ++ Ui.join sep (y :: r).
Proof. reflexivity. Qed.

Lemma parse_elements_S fuel acc s :
  JSON.parse_elements (S fuel) acc s
  = match JSON.parse_value fuel s with
    | JSON.Parsed v r =>
        match JSON.skip_ws r with
        | c :: r1 =>
            if c =? 44 then JSON.parse_elements fuel (v :: acc) r1
            else if c =? 93 then JSON.Parsed (JSON.JArray (rev (v :: acc))) r1
            else JSON.SyntaxError
        | [] => JSON.SyntaxError
        end
    | JSON.SyntaxError => JSON.SyntaxError
    | JSON.OutOfFuel => JSON.OutOfFuel
    end.
Proof. reflexivity. Qed.

Lemma parse_elements_strings xs : forall x acc fuel rest,
  (length xs + 2 <= fuel)%nat ->
  JSON.parse_elements fuel acc
    (Ui.join [44] (map Ui.stringify_string (x :: xs)) ++ 93 :: rest)
  = JSON.Parsed (JSON.JArray (rev acc ++ map JSON.JString (x :: xs))) rest.
Proof.
  induction xs as [|y xs IH]; intros x acc fuel rest Hfuel.
  - destruct fuel as [|[|fuel]]; [simpl in Hfuel; lia..|].
    rewrite parse_elements_S. cbn [map Ui.join].
    rewrite parse_value_stringify_string.
    cbn [JSON.skip_ws JSON.is_ws N.eqb Pos.eqb orb]. reflexivity.
  - destruct fuel as [|[|fuel]]; [simpl in Hfuel; lia..|].
    change (map Ui.stringify_string (x :: y :: xs))
      with (Ui.stringify_string x :: Ui.stringify_string y :: map Ui.stringify_string xs).
    rewrite join_cons, <- !app_assoc.
    rewrite parse_elements_S, parse_value_stringify_string.
    cbn [JSON.skip_ws JSON.is_ws N.eqb Pos.eqb orb app].
    change (Ui.stringify_string y :: map Ui.stringify_string xs)
      with (map Ui.stringify_string (y :: xs)).
    rewrite IH by (simpl in *; lia).
    cbn [rev]. by rewrite <- app_assoc.
Qed.

Lemma length_join_strings xs :
  (length xs <= length (Ui.join [44%N] (map Ui.stringify_string xs)))%nat.
Proof.
  induction xs as [|x [|y xs] IH]; [simpl; lia| |].
  - cbn [map Ui.join Ui.stringify_string length]. lia.
  - change (map Ui.stringify_string (x :: y :: xs))
      with (Ui.stringify_string x :: map Ui.stringify_string (y :: xs)) in *.
    change (map Ui.stringify_string (y :: xs))
      with (Ui.stringify_string y :: map Ui.stringify_string xs) in *.
    rewrite join_cons, !length_app. cbn [length] in *. lia.
Qed.

Lemma parse_value_array fuel r c r' :
  JSON.skip_ws r = c :: r' -> c <> 93 ->
  JSON.parse_value (S fuel) (91 :: r) = JSON.parse_elements fuel [] r.
Proof.
  intros Hr Hc. cbn [JSON.parse_value JSON.skip_ws JSON.is_ws N.eqb Pos.eqb orb].
  rewrite Hr. by destruct (N.eqb_spec c 93).
Qed.

Lemma parse_stringify_strings xs :
  JSON.parse (Ui.stringify_strings xs) = Some (JSON.JArray (map JSON.JString xs)).
Proof.
  destruct xs as [|x xs]; [reflexivity|].
  unfold JSON.parse, Ui.stringify_strings.
  pose proof (length_join_strings (x :: xs)) as Hlen.
  assert (exists r, Ui.join [44] (map Ui.stringify_string (x :: xs)) ++ [93] = 34 :: r)
    as [r Hr].
  { destruct xs as [|y xs]; [by eexists|].
    change (map Ui.stringify_string (x :: y :: xs))
      with (Ui.stringify_string x :: Ui.stringify_string y :: map Ui.stringify_string xs).
    rewrite join_cons. unfold Ui.stringify_string at 1.
    rewrite <- !app_comm_cons. by eexists. }
  set (body := Ui.join [44] (map Ui.stringify_string (x :: xs))) in *.
  assert (exists fuel, (2 * length (91%N :: body ++ [93%N]) + 1)%nat = S fuel
                       /\ (length xs + 2 <= fuel)%nat) as (fuel & -> & Hfuel).
  { exists (2 * length (91%N :: body ++ [93%N]))%nat.
    cbn [length] in *. rewrite length_app. cbn [length]. lia. }
  rewrite (parse_value_array fuel (body ++ [93]) 34 r); [|by rewrite Hr|done].
  subst body. rewrite parse_elements_strings by done.
  reflexivity.
Qed.

(** X9. The saved searches outlive the page: what [saveSearch] writes to the
    local storage is read back by the mount effect of a later visit as the
    very list that [saveSearch] left on the page, whatever characters the
    searches hold (quotes, backslashes, control characters, surrogates). *)
Theorem saved_searches_are_restored :
  forall toLowerCase st st' later,
    nonempty (Ui.lastSearch st) = true ->
    Ui.canSaveSearch st = true ->
    Ui.saveSearch toLowerCase st = Some st' ->
    Ui.stored later = Ui.stored st' ->
    Ui.savedSearches (Ui.load_savedSearches later) = Ui.savedSearches st'.
Proof.
  intros toLowerCase st st' later Hlast Hcan Hsave Hlater.
  unfold Ui.saveSearch in Hsave. rewrite Hlast, Hcan in Hsave. cbn [negb orb] in Hsave.
  destruct (Ui.strings_of (Ui.savedSearches st)) as [saved|]; [|discriminate].
  injection Hsave as <-. cbn [Ui.stored Ui.savedSearches] in *.
  unfold Ui.load_savedSearches. rewrite Hlater.
  rewrite parse_stringify_strings.
  by rewrite (parse_Some_nonempty _ _ (parse_stringify_strings _)).
Qed.

(** A run of [saved_searches_are_restored]: a search with quotes in it, saved
    on a page that had none, and read back on a fresh page. *)
Lemma saved_searches_are_restored_witness :
  let st := {| Ui.savedSearches := JSON.JArray [];
               Ui.lastSearch := lit "'cafe' in 'Bandung'";
               Ui.canSaveSearch := true;
               Ui.stored := None |} in
  let st' := {| Ui.savedSearches := JSON.JArray [JSON.JString (lit "'cafe' in 'Bandung'")];
                Ui.lastSearch := lit "'cafe' in 'Bandung'";
                Ui.canSaveSearch := false;
                Ui.stored := Some (lit "['\'cafe\' in \'Bandung\'']") |} in
  let later := {| Ui.savedSearches := JSON.JArray []; Ui.lastSearch := [];
                  Ui.canSaveSearch := false; Ui.stored := Ui.stored st' |} in
  Ui.savedSearches (Ui.load_savedSearches later) = Ui.savedSearches st'.
Proof.
  intros st st' later.
  apply (saved_searches_are_restored (fun s => s) st st' later); reflexivity.
Defined.

(** ** The CSV export *)

Lemma read_csv_quoted s : forall field row rows rest,
  Ui.read_csv Ui.Quoted field row rows
    (flat_map (fun c => if c =? 34 then [34; 34] else [c]) s ++ 34 :: rest)
  = Ui.read_csv Ui.QuoteInQuoted (rev s ++ field) row rows rest.
Proof.
  induction s as [|c s IH]; intros field row rows rest.
  - reflexivity.
  - cbn [flat_map]. destruct (N.eqb_spec c 34) as [->|Hc].
    + cbn [app Ui.read_csv N.eqb Pos.eqb]. rewrite IH. simpl. by rewrite <- app_assoc.
    + cbn [app Ui.read_csv]. destruct (N.eqb_spec c 34); [done|].
      rewrite IH. simpl. by rewrite <- app_assoc.
Qed.

Lemma read_csv_field s field row rows rest :
  Ui.read_csv Ui.FieldStart field row rows (Ui.csv_field s ++ rest)
  = Ui.read_csv Ui.QuoteInQuoted (rev s) row rows rest.
Proof.
  unfold Ui.csv_field. rewrite <- app_comm_cons, <- app_assoc.
  cbn [Ui.read_csv N.eqb Pos.eqb app].
  by rewrite read_csv_quoted, app_nil_r.
Qed.

Lemma csv_row_cons x y r :
  Ui.csv_row (x :: y :: r) = Ui.csv_field x ++ [44] ++ Ui.csv_row (y :: r).
Proof. reflexivity. Qed.

(** A row followed by a line feed: the reader closes the row and starts the
    next one. *)
Lemma read_csv_row cells : forall x row rows more,
  Ui.read_csv Ui.FieldStart [] row rows (Ui.csv_row (x :: cells) ++ LF :: more)
  = Ui.read_csv Ui.FieldStart [] [] ((rev row ++ x :: cells) :: rows) more.
Proof.
  induction cells as [|y cells IH]; intros x row rows more.
  - change (Ui.csv_row [x]) with (Ui.csv_field x).
    rewrite read_csv_field. cbn [Ui.read_csv N.eqb Pos.eqb LF].
    unfold Ui.end_row, Ui.end_field. by rewrite rev_involutive.
  - rewrite csv_row_cons, <- !app_assoc, read_csv_field.
    cbn [app Ui.read_csv N.eqb Pos.eqb]. unfold Ui.end_field.
    rewrite rev_involutive, IH. simpl. by rewrite <- app_assoc.
Qed.

(** The last row, with nothing after it. *)
Lemma read_csv_last_row cells : forall x row rows,
  Ui.read_csv Ui.FieldStart [] row rows (Ui.csv_row (x :: cells))
  = Some (rev ((rev row ++ x :: cells) :: rows)).
Proof.
  induction cells as [|y cells IH]; intros x row rows.
  - change (Ui.csv_row [x]) with (Ui.csv_field x).
    rewrite <- (app_nil_r (Ui.csv_field x)), read_csv_field.
    cbn [Ui.read_csv]. unfold Ui.end_row, Ui.end_field. by rewrite rev_involutive.
  - rewrite csv_row_cons, read_csv_field.
    cbn [app Ui.read_csv N.eqb Pos.eqb]. unfold Ui.end_field.
    rewrite rev_involutive, IH. simpl. by rewrite <- app_assoc.
Qed.

Lemma read_csv_rows table : forall acc,
  Forall (fun row => row <> []) table ->
  Ui.read_csv Ui.FieldStart [] [] acc (Ui.join [LF] (map Ui.csv_row table))
  = Some (rev acc ++ table).
Proof.
  induction table as [|row table IH]; intros acc Htable.
  - simpl. by rewrite app_nil_r.
  - inversion Htable as [|? ? Hrow Htable']; subst.
    destruct row as [|x cells]; [done|].
    destruct table as [|row' table].
    + cbn [map Ui.join]. by rewrite read_csv_last_row.
    + change (map Ui.csv_row ((x :: cells) :: row' :: table))
        with (Ui.csv_row (x :: cells) :: Ui.csv_row row' :: map Ui.csv_row table).
      rewrite join_cons.
      change ([LF] ++ ?r) with (LF :: r).
      rewrite read_csv_row.
      change (Ui.csv_row row' :: map Ui.csv_row table)
        with (map Ui.csv_row (row' :: table)).
      rewrite IH by done. simpl. by rewrite <- app_assoc.
Qed.

Lemma read_csv_headers rest :
  Ui.parse_csv (Ui.headers ++ rest)
  = Ui.read_csv Ui.FieldStart [] [] [Ui.header_cells] rest.
Proof. reflexivity. Qed.

Lemma lead_cells_length toStr lead cells :
  Ui.lead_cells toStr lead = Some cells -> length cells = 9%nat.
Proof. intros H. apply length_mapM in H. by rewrite <- H. Qed.

(** X10. The CSV that [generateCSVContent] writes reads back as it was
    meant: a reader of comma-separated values finds the header line and
    then, for every lead in order, one row with the nine texts of its cells,
    unchanged, whatever commas, quotes or line breaks these texts hold. *)
Theorem the_csv_reads_back :
  forall toStr lead leads csv,
    Ui.generateCSVContent toStr (lead :: leads) = Some csv ->
    exists rows,
      mapM (Ui.lead_cells toStr) (lead :: leads) = Some rows
      /\ Ui.parse_csv csv = Some (Ui.header_cells :: rows)
      /\ length rows = S (length leads)
      /\ Forall (fun row => length row = 9%nat) rows.
Proof.
  intros toStr lead leads csv Hcsv. unfold Ui.generateCSVContent in Hcsv.
  destruct (mapM (Ui.lead_cells toStr) (lead :: leads)) as [rows|] eqn:Hrows;
    [|discriminate].
  apply (inj Some) in Hcsv. subst csv. exists rows.
  assert (Forall (fun row => length row = 9%nat) rows) as H9.
  { apply mapM_Some in Hrows. clear -Hrows.
    induction Hrows as [|l r ls rs Hl _ IH]; constructor; [|done].
    by apply lead_cells_length in Hl. }
  split; [done|]. split; [|split; [|done]].
  - rewrite read_csv_headers, read_csv_rows; [done|].
    eapply Forall_impl; [exact H9|]. intros row Hlen ->. discriminate.
  - apply length_mapM in Hrows. by rewrite <- Hrows.
Qed.

(** A run of [the_csv_reads_back]: a name with a comma, quotes and a line
    break in it, and a lead that is no record at all. *)
Lemma the_csv_reads_back_witness :
  let name := lit "Kopi 'Aroma', Bandung" ++ [LF] ++ lit "(est. 1930)" in
  let lead := JSON.JObject [(lit "name", JSON.JString name);
                            (lit "phone", JSON.JNull);
                            (lit "rating", JSON.JNumber (lit "4.5"))] in
  let leads := [JSON.JNumber (lit "7")] in
  exists rows,
    mapM (Ui.lead_cells Envelope.lexeme_text) (lead :: leads) = Some rows
    /\ Ui.parse_csv
         (default [] (Ui.generateCSVContent Envelope.lexeme_text (lead :: leads)))
       = Some (Ui.header_cells :: rows)
    /\ length rows = S (length leads)
    /\ Forall (fun row => length row = 9%nat) rows.
Proof.
  intros name lead leads.
  apply (the_csv_reads_back Envelope.lexeme_text lead leads).
  reflexivity.
Defined.

(** No leads, no file; and a lead that is [null] makes the export throw. *)
Example csv_edge_cases :
  Ui.generateCSVContent Envelope.lexeme_text [] = Some []
  /\ Ui.generateCSVContent Envelope.lexeme_text [JSON.JNull] = None.
Proof. by split. Qed.

(** ** Copying the emails *)

Lemma nonempty_join sep x xs :
  nonempty x = true -> nonempty (Ui.join sep (x :: xs)) = true.
Proof. destruct x; [done|]. by destruct xs. Qed.

Lemma mapM_step {A B} (f : A -> option B) x l :
  mapM f (x :: l)
  = match f x with
    | Some y => match mapM f l with Some k => Some (y :: k) | None => None end
    | None => None
    end.
Proof. simpl. destruct (f x); [|done]. by destruct (mapM f l). Qed.

Lemma omap_step {A B} (f : A -> option B) x l :
  omap f (x :: l)
  = match f x with Some y => y :: omap f l | None => omap f l end.
Proof. reflexivity. Qed.

Lemma copyEmails_texts toStr leads :
  forallb Ui.email_is_text leads = true ->
  exists all,
    mapM (JSON.get (lit "email")) leads = Some all
    /\ mapM (Ui.join_text toStr) (List.filter JSON.truthy all)
       = Some (omap Ui.email_of leads).
Proof.
  induction leads as [|lead leads IH]; [by exists []|].
  cbn [forallb]. intros [Hlead Hleads]%andb_true_iff.
  destruct (IH Hleads) as (all & Hall & Htexts). clear IH.
  unfold Ui.email_is_text in Hlead. rewrite omap_step. unfold Ui.email_of at 1.
  destruct (JSON.get (lit "email") lead) as [[v|]|] eqn:Hget; [| |done].
  - exists (Some v :: all). split; [by rewrite mapM_step, Hget, Hall|].
    destruct v as [|b|n|s|xs|ms]; try done.
    cbn [List.filter JSON.truthy]. destruct (nonempty s) eqn:Hs; [|done].
    rewrite mapM_step. cbn [Ui.join_text JSON.to_string]. by rewrite Htexts.
  - by exists (None :: all); split; [rewrite mapM_step, Hget, Hall|].
Qed.

Lemma omap_email_of_nonempty leads :
  Forall (fun s => nonempty s = true) (omap Ui.email_of leads).
Proof.
  induction leads as [|lead leads IH]; [constructor|].
  rewrite omap_step. unfold Ui.email_of at 1.
  destruct (JSON.get (lit "email") lead) as [[[| | |s| |]|]|]; try done.
  destruct (nonempty s) eqn:Hs; [by constructor|done].
Qed.

(** X11. When the email of every lead is a string, [null] or missing,
    [copyEmails] hands the clipboard the emails that are not empty, in the
    order of the leads, separated by a comma and a space; leads without an
    email leave no gap, and when no lead has one nothing is written. *)
Theorem emails_are_copied_in_order :
  forall toStr leads,
    forallb Ui.email_is_text leads = true ->
    Ui.copyEmails toStr leads
    = Some (match omap Ui.email_of leads with
            | [] => None
            | emails => Some (Ui.join (lit ", ") emails)
            end).
Proof.
  intros toStr leads Hleads.
  destruct (copyEmails_texts toStr leads Hleads) as (all & Hall & Htexts).
  unfold Ui.copyEmails. rewrite Hall, Htexts.
  pose proof (omap_email_of_nonempty leads) as Hne.
  destruct (omap Ui.email_of leads) as [|x xs]; [done|].
  inversion Hne; subst. by rewrite nonempty_join.
Qed.

(** A run of [emails_are_copied_in_order]. *)
Lemma emails_are_copied_in_order_witness :
  Ui.copyEmails Envelope.lexeme_text
    [JSON.JObject [(lit "email", JSON.JString (lit "a@x.id"))];
     JSON.JObject [(lit "name", JSON.JString (lit "B"))];
     JSON.JObject [(lit "email", JSON.JNull)];
     JSON.JObject [(lit "email", JSON.JString [])];
     JSON.JObject [(lit "email", JSON.JString (lit "e@y.id"))]]
  = Some (Some (lit "a@x.id, e@y.id")).
Proof.
  apply (emails_are_copied_in_order Envelope.lexeme_text). reflexivity.
Defined.

(** ** Offering to save a search *)

Lemma some_same_search_strings lower query saved :
  Ui.some_same_search lower query (map JSON.JString saved)
  = Some (existsb (fun s => bool_decide (lower s = lower query)) saved).
Proof.
  induction saved as [|s saved IH]; [done|].
  cbn [map Ui.some_same_search existsb].
  by destruct (bool_decide (lower s = lower query)).
Qed.

(** A query that no saved search equals, letter case apart, is offered for
    saving as soon as it brought a lead; without a lead it never is. *)
Lemma a_new_search_is_offered lower lead leads saved query :
  Forall (fun s => lower s <> lower query) saved ->
  Ui.finally_canSaveSearch lower (lead :: leads)
    (JSON.JArray (map JSON.JString saved)) query = Some true
  /\ Ui.finally_canSaveSearch lower []
       (JSON.JArray (map JSON.JString saved)) query = Some false.
Proof.
  intros Hnew. split; [|done].
  cbn [Ui.finally_canSaveSearch]. rewrite some_same_search_strings.
  replace (existsb _ saved) with false; [done|].
  symmetry. apply not_true_is_false. intros (s & Hs & Hsame)%existsb_exists.
  apply bool_decide_eq_true in Hsame.
  rewrite Forall_forall in Hnew. apply (Hnew s); [|done].
  by apply list_elem_of_In.
Qed.

(** X12. Once [saveSearch] has saved the last search, the offer to save it
    is withdrawn and does not come back: a later run of the same query, in
    whatever letter case and however many leads it brings, ends with
    [canSaveSearch] false. *)
Theorem a_saved_search_is_not_offered_again :
  forall lower st st' lead leads query,
    nonempty (Ui.lastSearch st) = true ->
    Ui.canSaveSearch st = true ->
    Ui.saveSearch lower st = Some st' ->
    lower query = lower (Ui.lastSearch st) ->
    Ui.canSaveSearch st' = false
    /\ Ui.finally_canSaveSearch lower (lead :: leads) (Ui.savedSearches st') query
       = Some false.
Proof.
  intros lower st st' lead leads query Hlast Hcan Hsave Hsame.
  unfold Ui.saveSearch in Hsave. rewrite Hlast, Hcan in Hsave. cbn [negb orb] in Hsave.
  destruct (Ui.strings_of (Ui.savedSearches st)) as [saved|]; [|discriminate].
  apply (inj Some) in Hsave. subst st'. split; [done|].
  cbn [Ui.savedSearches Ui.finally_canSaveSearch].
  rewrite some_same_search_strings. unfold Ui.updatedSearches. cbn [existsb].
  by rewrite Hsame, bool_decide_eq_true_2.
Qed.

(** A run of [a_saved_search_is_not_offered_again], with a stand-in for the
    case tables that lowers the letters A to Z. *)
Lemma a_saved_search_is_not_offered_again_witness :
  let fold := map (fun c => if (65 <=? c) && (c <=? 90) then c + 32 else c) in
  let st := {| Ui.savedSearches := JSON.JArray [JSON.JString (lit "'Cafe' in 'Bandung'")];
               Ui.lastSearch := lit "'cafe' in 'bandung'";
               Ui.canSaveSearch := true;
               Ui.stored := None |} in
  let st' := default st (Ui.saveSearch fold st) in
  Ui.savedSearches st' = JSON.JArray [JSON.JString (lit "'cafe' in 'bandung'")]
  /\ Ui.canSaveSearch st' = false
  /\ Ui.finally_canSaveSearch fold [JSON.JNull] (Ui.savedSearches st')
       (lit "'CAFE' in 'Bandung'") = Some false.
Proof.
  intros fold st st'. split; [reflexivity|].
  apply (a_saved_search_is_not_offered_again fold st st' JSON.JNull []
           (lit "'CAFE' in 'Bandung'")); reflexivity.
Defined.

(** ** The request of [saveToGist] *)

Lemma parse_members_S fuel acc s :
  JSON.parse_members (S fuel) acc s
  = match JSON.skip_ws s with
    | q :: r =>
        if q =? 34 then
          match JSON.lex_string [] r with
          | Some (key, r1) =>
              match JSON.skip_ws r1 with
              | c :: r2 =>
                  if c =? 58 then
                    match JSON.parse_value fuel r2 with
                    | JSON.Parsed v r3 =>
                        match JSON.skip_ws r3 with
                        | d :: r4 =>
                            if d =? 44 then JSON.parse_members fuel ((key, v) :: acc) r4
                            else if d =? 125 then
                              JSON.Parsed (JSON.JObject (rev ((key, v) :: acc))) r4
                            else JSON.SyntaxError
                        | [] => JSON.SyntaxError
                        end
                    | JSON.SyntaxError => JSON.SyntaxError
                    | JSON.OutOfFuel => JSON.OutOfFuel
                    end
                  else JSON.SyntaxError
              | [] => JSON.SyntaxError
              end
          | None => JSON.SyntaxError
          end
        else JSON.SyntaxError
    | [] => JSON.SyntaxError
    end.
Proof. reflexivity. Qed.

(** A member whose key was written by [JSON.stringify]. *)
Lemma parse_members_key fuel acc key r2 :
  JSON.parse_members (S fuel) acc (Ui.stringify_string key ++ 58 :: r2)
  = match JSON.parse_value fuel r2 with
    | JSON.Parsed v r3 =>
        match JSON.skip_ws r3 with
        | d :: r4 =>
            if d =? 44 then JSON.parse_members fuel ((key, v) :: acc) r4
            else if d =? 125 then
              JSON.Parsed (JSON.JObject (rev ((key, v) :: acc))) r4
            else JSON.SyntaxError
        | [] => JSON.SyntaxError
        end
    | JSON.SyntaxError => JSON.SyntaxError
    | JSON.OutOfFuel => JSON.OutOfFuel
    end.
Proof.
  rewrite parse_members_S. unfold Ui.stringify_string.
  rewrite <- app_comm_cons, <- app_assoc.
  cbn [JSON.skip_ws JSON.is_ws N.eqb Pos.eqb orb app].
  rewrite lex_string_stringify.
  cbn [JSON.skip_ws JSON.is_ws N.eqb Pos.eqb orb app]. reflexivity.
Qed.

(** An object that starts with a key written by [JSON.stringify]. *)
Lemma parse_value_object fuel key r :
  JSON.parse_value (S fuel) (123 :: Ui.stringify_string key ++ r)
  = JSON.parse_members fuel [] (Ui.stringify_string key ++ r).
Proof. reflexivity. Qed.

Lemma gist_body_members description fileName csvContent :
  Ui.gist_body description fileName csvContent
  = 123 :: Ui.stringify_string (lit "description") ++ 58
    :: Ui.stringify_string description ++ 44
    :: Ui.stringify_string (lit "public") ++ 58 :: lit "true" ++ 44
    :: Ui.stringify_string (lit "files") ++ 58
    :: 123 :: Ui.stringify_string fileName ++ 58
    :: 123 :: Ui.stringify_string (lit "content") ++ 58
    :: Ui.stringify_string csvContent ++ [125; 125; 125].
Proof. reflexivity. Qed.

Lemma parse_value_gist_body fuel description fileName csvContent :
  JSON.parse_value (9 + fuel) (Ui.gist_body description fileName csvContent)
  = JSON.Parsed
      (JSON.JObject
         [(lit "description", JSON.JString description);
          (lit "public", JSON.JBool true);
          (lit "files",
           JSON.JObject
             [(fileName, JSON.JObject [(lit "content", JSON.JString csvContent)])])])
      [].
Proof.
  rewrite gist_body_members.
  change (9 + fuel)%nat with (S (S (S (S (S (S (S (S (S fuel))))))))).
  rewrite parse_value_object, parse_members_key, parse_value_stringify_string.
  cbn [JSON.skip_ws JSON.is_ws N.eqb Pos.eqb orb].
  rewrite parse_members_key.
  change (JSON.parse_value (S (S (S (S (S (S fuel)))))) (lit "true" ++ ?r))
    with (JSON.Parsed (JSON.JBool true) r).
  cbn [JSON.skip_ws JSON.is_ws N.eqb Pos.eqb orb].
  rewrite parse_members_key, parse_value_object, parse_members_key,
    parse_value_object, parse_members_key, parse_value_stringify_string.
  reflexivity.
Qed.

Lemma replace_spaces_no_space s : 32 ∉ Ui.replace_spaces s.
Proof.
  unfold Ui.replace_spaces. intros (c & Hc & _)%list_elem_of_fmap.
  by destruct (N.eqb_spec c 32).
Qed.

(** X13. The body that [saveToGist] sends is JSON text that [JSON.parse]
    reads back as the object it was written from: the description with the
    last search, [public] true, and one file whose content is the CSV,
    unit for unit, whatever quotes, line breaks or other characters it
    holds.  The name of the file has no space. *)
Theorem the_gist_request_carries_the_csv :
  forall lastSearch keyword location csvContent,
    JSON.parse (Ui.gist_body (Ui.gist_description lastSearch)
                  (Ui.gist_fileName keyword location) csvContent)
    = Some (JSON.JObject
              [(lit "description",
                JSON.JString (lit "Business leads for: " ++ lastSearch));
               (lit "public", JSON.JBool true);
               (lit "files",
                JSON.JObject
                  [(Ui.gist_fileName keyword location,
                    JSON.JObject [(lit "content", JSON.JString csvContent)])])])
    /\ 32 ∉ Ui.gist_fileName keyword location.
Proof.
  intros lastSearch keyword location csvContent. split.
  - unfold JSON.parse.
    set (body := Ui.gist_body _ _ _).
    assert (exists fuel, (2 * length body + 1 = 9 + fuel)%nat) as [fuel ->].
    { exists (2 * length body + 1 - 9)%nat.
      assert (15 <= length body)%nat; [|lia].
      subst body. unfold Ui.gist_body. rewrite length_app.
      change (length (lit "{'description':")) with 15%nat. lia. }
    subst body. by rewrite parse_value_gist_body.
  - unfold Ui.gist_fileName.
    rewrite !not_elem_of_app. repeat split.
    + apply replace_spaces_no_space.
    + by intros [=]%list_elem_of_singleton.
    + apply replace_spaces_no_space.
    + intros H. repeat (apply elem_of_cons in H as [H|H]; [discriminate|]).
      by apply elem_of_nil in H.
Qed.
